(** * random-melody: the generative core of [src/melody-generator.ts]

    A shallow embedding of the seeded random source, the rhythm partitioner,
    the pitch walker, the melody assembler and the duration-token table,
    followed by the properties the specification states about them.

    ** Number model

    The source computes with JavaScript numbers (IEEE 754 binary64).
    - Pitches and the 32-bit mixing state of the generators are integers:
      they are modelled in [Z], with the [ToInt32]/[ToUint32] wrap-around of
      the bit operators written out.
    - Durations, time cursors and random draws are modelled in [Q] with
      exact arithmetic.  The rhythm pool holds powers of two and every
      quantity derived from it is a multiple of 1/16 not above 4, so
      binary64 computes the same values without rounding; the two
      comparisons against [EPS] separate multiples of 1/16 and are not
      affected by the rounding of [EPS], [1 - EPS] or [remaining + EPS].
      Lemma [binary64_agrees] checks this against binary64 itself, state by
      state.  A draw of the seeded generator is [k / 2^32] with [k < 2^32],
      and its product with an array length not above 5 is exact as well.
      For an arbitrary draw [r < 1] of [Math.random] the binary64 product
      [r * length] may be rounded, but stays below [length]: the index it
      selects is a valid one in both readings.
    - Indexing an array outside its bounds yields [undefined] in the source,
      and arithmetic on it yields NaN.  Neither has a counterpart in [Q]:
      the embedding stops with the outcome [Undefined] at that point.
    - Strings are sequences of characters with codes below 256, one per
      UTF-16 code unit of the source string. *)

From Stdlib Require Import ZArith QArith Qround Qabs List String Ascii.
From Stdlib Require Import Lia Lqa Bool DecimalString.
From Stdlib Require Import PrimFloat FloatOps SpecFloat.
From Stdlib Require Import DecimalPos DecimalZ.
Import ListNotations.

Set Implicit Arguments.
Local Open Scope Q_scope.

(* ------------------------------------------------------------------ *)
(** ** JavaScript primitives used by the source *)

Module JS.

Definition toUint32 (z : Z) : Z := (z mod 2 ^ 32)%Z.

Definition toInt32 (z : Z) : Z := ((z + 2 ^ 31) mod 2 ^ 32 - 2 ^ 31)%Z.

(** [Math.imul(a, b)] *)
Definition imul (a b : Z) : Z := toInt32 (toInt32 a * toInt32 b)%Z.

(** [a ^ b] *)
Definition xor (a b : Z) : Z := toInt32 (Z.lxor (toInt32 a) (toInt32 b)).

(** [a | b] *)
Definition or (a b : Z) : Z := toInt32 (Z.lor (toInt32 a) (toInt32 b)).

(** [a << n], for a shift count below 32 *)
Definition shl (a n : Z) : Z := toInt32 (Z.shiftl (toInt32 a) n).

(** [a >>> n], for a shift count below 32 *)
Definition ushr (a n : Z) : Z := Z.shiftr (toUint32 a) n.

(** [a < b] and [a > b] on numbers *)
Definition ltb (a b : Q) : bool := negb (Qle_bool b a).
Definition gtb (a b : Q) : bool := ltb b a.

(** [Math.floor] *)
Definition floor (x : Q) : Z := Qfloor x.

(** [Math.round]: the nearest integer, ties towards plus infinity *)
Definition round (x : Q) : Z := Qfloor (x + 0.5).

(** [arr[i]] for an integral [i]: [None] stands for [undefined] *)
Definition index (A : Type) (arr : list A) (i : Z) : option A :=
  if (i <? 0)%Z then None else nth_error arr (Z.to_nat i).

(** [arr.length] as a number *)
Definition length (A : Type) (arr : list A) : Q :=
  inject_Z (Z.of_nat (List.length arr)).

(** [String(n)] for an integer [n] in plain decimal notation *)
Definition String_of_int (n : Z) : string :=
  NilZero.string_of_int (Z.to_int n).

(** [str.charCodeAt(i)] for each [i] in turn *)
Fixpoint charCodes (str : string) : list Z :=
  match str with
  | EmptyString => []
  | String c rest => Z.of_N (N_of_ascii c) :: charCodes rest
  end.

End JS.

(* ------------------------------------------------------------------ *)
(** ** Seeded RNG (Mulberry32) *)

(** The loop of [xmur3]: the value of [h] that the returned closure
    captures. *)
Definition xmur3 (str : string) : Z :=
  fold_left
    (fun h c =>
       let h := JS.imul (JS.xor h c) 3432918353 in
       JS.or (JS.shl h 13) (JS.ushr h 19))
    (JS.charCodes str)
    (JS.xor 1779033703 (Z.of_nat (String.length str))).

(** One call of the closure returned by [xmur3]: the value returned and the
    new [h]. *)
Definition xmur3_next (h : Z) : Z * Z :=
  let h := JS.imul (JS.xor h (JS.ushr h 16)) 2246822507 in
  let h := JS.imul (JS.xor h (JS.ushr h 13)) 3266489909 in
  let h := JS.xor h (JS.ushr h 16) in
  (JS.toUint32 h, h).

(** One call of the closure returned by [mulberry32(a)]: the draw and the
    new [a].  The source adds to [a] as a number, without wrapping. *)
Definition mulberry32 (a : Z) : Q * Z :=
  let a := (a + 0x6d2b79f5)%Z in
  let t := a in
  let t := JS.imul (JS.xor t (JS.ushr t 15)) (JS.or t 1) in
  let t := JS.xor t (t + JS.imul (JS.xor t (JS.ushr t 7)) (JS.or t 61))%Z in
  (inject_Z (JS.toUint32 (JS.xor t (JS.ushr t 14))) / 4294967296, a).

(** A random source is a closure [() => number]: a hidden state and a
    transition that yields one draw. *)
Class RandomSource (St : Type) := rand : St -> Q * St.

(** The two closures [makePRNG] can return.  [Math.random] is the engine's
    own generator: a run sees some sequence of samples, [calls] counts the
    draws taken so far. *)
Inductive PRNG : Type :=
| MathRandom (samples : nat -> Q) (calls : nat)
| Mulberry32 (a : Z).

#[export] Instance PRNG_rand : RandomSource PRNG :=
  fun g =>
    match g with
    | MathRandom samples calls => (samples calls, MathRandom samples (S calls))
    | Mulberry32 a => let (r, a') := mulberry32 a in (r, Mulberry32 a')
    end.

(** [makePRNG(seed)]; [engine] is the sample sequence [Math.random] has in
    store for this run.  [!seed] holds for [undefined] and for the empty
    string. *)
Definition makePRNG (engine : nat -> Q) (seed : option string) : PRNG :=
  match seed with
  | None => MathRandom engine 0
  | Some str =>
      if (String.length str =? 0)%nat then MathRandom engine 0
      else
        let seedFn := xmur3 str in
        Mulberry32 (fst (xmur3_next seedFn))
  end.

(* ------------------------------------------------------------------ *)
(** ** Pitch names and clamping *)

Definition SHARP_NOTE_ORDER : list string :=
  ["C"; "C#"; "D"; "D#"; "E"; "F"; "F#"; "G"; "G#"; "A"; "A#"; "B"]%string.

Definition midiToName (midi : Z) : string :=
  let pc := Z.rem midi 12 in
  let octave := (midi / 12 - 1)%Z in
  ((match JS.index SHARP_NOTE_ORDER pc with
    | Some n => n
    | None => "undefined"
    end) ++ JS.String_of_int octave)%string.

Definition clamp (n lo hi : Z) : Z := Z.max lo (Z.min hi n).

(* ------------------------------------------------------------------ *)
(** ** Outcomes and the state monad of a run *)

Inductive Outcome (A : Type) : Type :=
| Done (a : A)
| Undefined      (* an array was read outside its bounds *)
| OutOfFuel.     (* the iteration budget of a [while] loop ran out *)

Arguments Undefined {A}.
Arguments OutOfFuel {A}.

Definition M (St A : Type) : Type := St -> Outcome (A * St).

Definition ret {St A : Type} (a : A) : M St A := fun s => Done (a, s).

Definition bind {St A B : Type} (m : M St A) (k : A -> M St B) : M St B :=
  fun s =>
    match m s with
    | Done (a, s') => k a s'
    | Undefined => Undefined
    | OutOfFuel => OutOfFuel
    end.

Notation "x <- m ;; k" := (bind m (fun x => k))
  (at level 61, m at next level, right associativity).

(** [rand()] *)
Definition draw {St : Type} `{RandomSource St} : M St Q :=
  fun s => Done (rand s).

(** the value of [arr[i]], when it is defined *)
Definition defined {St A : Type} (o : option A) : M St A :=
  match o with
  | Some a => ret a
  | None => fun _ => Undefined
  end.

(* ------------------------------------------------------------------ *)
(** ** Rhythm generation *)

(** Measure length is 1.0 (a whole note); values are fractions of a whole. *)
Definition RHYTHM_POOL : list Q := [1.0; 0.5; 0.25; 0.125; 0.0625].

Definition EPS : Q := 1e-6.

(** [durations[durations.length - 1] += diff].  On an empty array the source
    writes a property named [-1], which is not an element: the array stays
    empty. *)
Fixpoint addToLast (durations : list Q) (diff : Q) : list Q :=
  match durations with
  | [] => []
  | [d] => [d + diff]
  | d :: rest => d :: addToLast rest diff
  end.

(** [durations.reduce((a, b) => a + b, 0)] *)
Definition sumOf (durations : list Q) : Q := fold_left Qplus durations 0.

(** The snapping step after the loop of [generateMeasureDurations]. *)
Definition snap (durations : list Q) : list Q :=
  let sum := sumOf durations in
  let diff := 1 - sum in
  if JS.gtb (Qabs diff) EPS then addToLast durations diff else durations.

Section Generator.

Context {St : Type} {source : RandomSource St}.

(** What one test of the [while] condition and one pass through the loop
    body of [generateMeasureDurations] do. *)
Inductive Branch : Type :=
| Leave                              (* [used < 1 - EPS] is false *)
| SafetyNet (remaining : Q)          (* no candidate: push and [break] *)
| Pick (val : option Q) (s : St).    (* [val = candidates[idx]] *)

Definition loopBranch (pool : list Q) (used : Q) (s : St) : Branch :=
  if JS.ltb used (1 - EPS) then
    let remaining := 1 - used in
    let candidates := filter (fun v => Qle_bool v (remaining + EPS)) pool in
    if (List.length candidates =? 0)%nat then SafetyNet remaining
    else
      let (r, s') := rand s in
      let idx := JS.floor (r * JS.length candidates) in
      Pick (JS.index candidates idx) s'
  else Leave.

(** The [while] loop; [fuel] bounds the number of passes that push a pool
    value. *)
Fixpoint measureLoop (fuel : nat) (pool : list Q)
         (durations : list Q) (used : Q) : M St (list Q) :=
  fun s =>
    match loopBranch pool used s with
    | Leave => Done (durations, s)
    | SafetyNet remaining => Done (durations ++ [remaining], s)
    | Pick None _ => Undefined
    | Pick (Some val) s' =>
        match fuel with
        | O => OutOfFuel
        | S fuel' => measureLoop fuel' pool (durations ++ [val]) (used + val) s'
        end
    end.

Definition generateMeasureDurations (fuel : nat) (pool : list Q)
  : M St (list Q) :=
  durations <- measureLoop fuel pool [] 0 ;;
  ret (snap durations).

(* ---------------------------------------------------------------- *)
(** ** Pitch generation (no key/mode) *)

Definition nextMidi (current low high : Z) : M St Z :=
  let stepProb := 0.8 in
  r <- draw ;;
  delta <- (if JS.ltb r stepProb then
              let choices := [-2; -1; 1; 2]%Z in
              r' <- draw ;;
              defined (JS.index choices (JS.floor (r' * JS.length choices)))
            else
              let leaps := [-7; -5; 5; 7]%Z in
              r' <- draw ;;
              defined (JS.index leaps (JS.floor (r' * JS.length leaps)))) ;;
  let candidate := (current + delta)%Z in
  ret (if (candidate <? low)%Z || (candidate >? high)%Z
       then clamp candidate low high
       else candidate).

End Generator.

(* ------------------------------------------------------------------ *)
(** ** Melody generation *)

Record Params : Type := {
  measures : Z;
  tempo : Z;
  seed : option string;
  lowMidi : Z;
  highMidi : Z
}.

Record Note : Type := {
  midi : Z;
  name : string;
  startBeats : Q;
  durationBeats : Q
}.

(** The variables the two loops of [generateMelody] update. *)
Record Cursor : Type := {
  events : list Note;
  tBeats : Q;
  currentMidi : Z
}.

Section Assembler.

Context {St : Type} {source : RandomSource St}.

(** [for (const frac of dursWholeFractions) { ... }] *)
Fixpoint noteLoop (params : Params) (fracs : list Q) (c : Cursor)
  : M St Cursor :=
  match fracs with
  | [] => ret c
  | frac :: rest =>
      currentMidi <- nextMidi (currentMidi c) (lowMidi params) (highMidi params) ;;
      let durationBeats := frac * 4 in
      noteLoop params rest
        {| events := events c ++ [ {| midi := currentMidi;
                                      name := midiToName currentMidi;
                                      startBeats := tBeats c;
                                      durationBeats := durationBeats |} ];
           tBeats := tBeats c + durationBeats;
           currentMidi := currentMidi |}
  end.

(** [for (let bar = 0; bar < params.measures; bar++) { ... }], with [bars]
    passes left. *)
Fixpoint barLoop (fuel : nat) (params : Params) (bars : nat) (c : Cursor)
  : M St Cursor :=
  match bars with
  | O => ret c
  | S bars' =>
      dursWholeFractions <- generateMeasureDurations fuel RHYTHM_POOL ;;
      c' <- noteLoop params dursWholeFractions c ;;
      barLoop fuel params bars' c'
  end.

End Assembler.

(** [generateMelody(params)], run against the samples [engine] that
    [Math.random] would deliver; [fuel] is the budget of each measure's
    [while] loop. *)
Definition generateMelody (engine : nat -> Q) (fuel : nat) (params : Params)
  : Outcome (list Note) :=
  let rand0 := makePRNG engine (seed params) in
  let tBeats := 0 in
  let currentMidi := clamp 60 (lowMidi params) (highMidi params) in
  match barLoop fuel params (Z.to_nat (measures params))
          {| events := []; tBeats := tBeats; currentMidi := currentMidi |}
          rand0 with
  | Done (c, _) => Done (events c)
  | Undefined => Undefined
  | OutOfFuel => OutOfFuel
  end.

(* ------------------------------------------------------------------ *)
(** ** MIDI export: duration tokens *)

(** The table of [beatsToDurationString].  Its keys are the strings that
    [String] produces for the numbers 0, 0.5, 1, 1.5, 2, 3 and 4 and for no
    other number, so the lookup [map[String(beats)]] is a lookup of [beats]
    among these numbers. *)
Definition durationMap : list (Q * string) :=
  [ (0, "T0"); (0.5, "8"); (1, "4"); (1.5, "d4"); (2, "2"); (3, "d2");
    (4, "1") ]%string.

Fixpoint mapLookup (map : list (Q * string)) (beats : Q) : option string :=
  match map with
  | [] => None
  | (key, token) :: rest =>
      if Qeq_bool key beats then Some token else mapLookup rest beats
  end.

Definition beatsToDurationString (beats : Q) : string :=
  match mapLookup durationMap beats with
  | Some token => token
  | None =>
      let ticks := JS.round (beats * 128) in
      ("T" ++ JS.String_of_int ticks)%string
  end.

(* ------------------------------------------------------------------ *)
(** ** Vocabulary of the properties *)

Section Sources.

Context {St : Type} {source : RandomSource St}.

(** The state of a source after [n] further draws. *)
Fixpoint later (n : nat) (s : St) : St :=
  match n with
  | O => s
  | S n' => later n' (snd (rand s))
  end.

(** Every draw the source will ever deliver lies in [0, 1). *)
Definition unitSource (s : St) : Prop :=
  forall n, 0 <= fst (rand (later n s)) < 1.

(** The states in which the [while] loop of [generateMeasureDurations]
    tests its condition, when started on source [s0]. *)
Inductive reached (pool : list Q) (s0 : St) : list Q -> Q -> St -> Prop :=
| reached_start : reached pool s0 [] 0 s0
| reached_push durations used s val s' :
    reached pool s0 durations used s ->
    loopBranch pool used s = Pick (Some val) s' ->
    reached pool s0 (durations ++ [val]) (used + val) s'.

End Sources.

(** The events run from time [t] to time [t'] without gap or overlap: the
    first starts at [t], each next one where its predecessor ends, and the
    last ends at [t']. *)
Fixpoint chain (t : Q) (evs : list Note) (t' : Q) : Prop :=
  match evs with
  | [] => t == t'
  | e :: rest =>
      startBeats e == t /\ chain (startBeats e + durationBeats e) rest t'
  end.

Definition inRange (low high : Z) (e : Note) : Prop :=
  (low <= midi e <= high)%Z.

(** Total duration, in beats, of a run of events. *)
Definition beatsOf (evs : list Note) : Q := sumOf (map durationBeats evs).

(** The pitch walker as section 4.3 of the specification words it: the
    second draw picks one of four deltas, each on a quarter of [0, 1). *)
Definition quarterOf (r : Q) (deltas : Z * Z * Z * Z) : Z :=
  let '(d0, d1, d2, d3) := deltas in
  if JS.ltb r (1 # 4) then d0
  else if JS.ltb r (2 # 4) then d1
  else if JS.ltb r (3 # 4) then d2
  else d3.

Definition specDelta (r1 r2 : Q) : Z :=
  if JS.ltb r1 (8 # 10) then quarterOf r2 (-2, -1, 1, 2)%Z
  else quarterOf r2 (-7, -5, 5, 7)%Z.

Definition nearestBound (candidate low high : Z) : Z :=
  if (candidate <? low)%Z then low
  else if (high <? candidate)%Z then high
  else candidate.

(** *** Binary64 counterparts, to check the number model against

    The constants of the partitioner as binary64 values, and the decisions
    and sums of one pass of its loop computed in binary64.  [toQ] is the
    exact value of a finite binary64 number. *)

Definition toQ (x : float) : Q :=
  match Prim2SF x with
  | S754_finite sign m e =>
      (if sign then -1 else 1) * inject_Z (Zpos m) * Qpower 2 e
  | _ => 0
  end.

Definition RHYTHM_POOL64 : list float :=
  [1.0; 0.5; 0.25; 0.125; 0.0625]%float.

#[warnings="-inexact-float"]
Definition EPS64 : float := 1e-6%float.

(** [k] sixteenths, the values [used] takes. *)
Fixpoint sixteenths64 (k : nat) : float :=
  match k with
  | O => 0%float
  | S k' => (sixteenths64 k' + 0.0625)%float
  end.

(** At [used = k/16] binary64 and exact arithmetic agree on the loop
    condition and on which pool values are candidates, and binary64 adds a
    candidate to [used] and converts it to beats without rounding. *)
Definition agreesAt (k : nat) : bool :=
  let used64 := sixteenths64 k in
  let used := toQ used64 in
  Qeq_bool used (inject_Z (Z.of_nat k) * (1 # 16))
  && Bool.eqb (PrimFloat.ltb used64 (1 - EPS64)) (JS.ltb used (1 - EPS))
  && forallb
       (fun v64 =>
          let fits64 := PrimFloat.leb v64 (1 - used64 + EPS64) in
          Bool.eqb fits64 (Qle_bool (toQ v64) (1 - used + EPS))
          && (negb fits64
              || (Qeq_bool (toQ (used64 + v64)) (used + toQ v64)
                  && Qeq_bool (toQ (v64 * 4)) (toQ v64 * 4))))
       RHYTHM_POOL64.

(** Scenario A of the specification. *)
Definition scenarioA : Params :=
  {| measures := 1; tempo := 110; seed := Some "hello"%string;
     lowMidi := 55; highMidi := 76 |}.

(** Two engines: one always draws 0, the other always 0.9. *)
Definition zeros : nat -> Q := fun _ => 0.

Definition nineTenths : nat -> Q := fun _ => 0.9.

(** A run whose seed is the empty string. *)
Definition unseeded : Params :=
  {| measures := 1; tempo := 100; seed := Some ""%string;
     lowMidi := 55; highMidi := 76 |}.

(* ------------------------------------------------------------------ *)
(** ** MIDI export: the track *)

(** The options object [writeMidi] hands to [new MidiWriter.NoteEvent]. *)
Record NoteEventOptions : Type := {
  pitch : list string;
  duration : string;
  wait : string
}.

(** The calls [writeMidi] makes on its track, in order. *)
Inductive TrackCall : Type :=
| setTempo (tempo : Z)
| addTrackName (text : string)
| addEvent (note : NoteEventOptions).

(** [for (const ev of events) { ... }] of [writeMidi] *)
Fixpoint writeMidiLoop (events : list Note) (lastStart : Q) : list TrackCall :=
  match events with
  | [] => []
  | ev :: rest =>
      let waitBeats := startBeats ev - lastStart in
      let lastStart := startBeats ev in
      let note := {| pitch := [name ev];
                     duration := beatsToDurationString (durationBeats ev);
                     wait := beatsToDurationString waitBeats |} in
      addEvent note :: writeMidiLoop rest lastStart
  end.

(** [writeMidi(events, tempo, outPath)], up to the track it builds: the
    encoding of the track into bytes and the write to [outPath] are the
    work of the MidiWriter library and of [fs]. *)
Definition writeMidi (events : list Note) (tempo : Z) : list TrackCall :=
  setTempo tempo
    :: addTrackName "Random Melody (no key)"
    :: (let lastStart := 0 in writeMidiLoop events lastStart).

(* ------------------------------------------------------------------ *)
(** ** CLI *)

Module CLI.

(** A number that [parseInt] returns: [None] stands for NaN. *)
Definition number : Type := option Z.

(** The [Params] object as [parseArgs] builds it. *)
Record Params : Type := {
  measures : number;
  tempo : number;
  seed : option string;
  lowMidi : number;
  highMidi : number
}.

(** [s.replace(/^--/, "")] *)
Definition stripDashes (s : string) : string :=
  match s with
  | String "-" (String "-" rest) => rest
  | _ => s
  end.

(** [s.startsWith("--")] *)
Definition startsWithDashes (s : string) : bool :=
  match s with
  | String "-" (String "-" _) => true
  | _ => false
  end.

(** [s.split("=")] *)
Fixpoint split (s : string) : list string :=
  match s with
  | EmptyString => [EmptyString]
  | String c rest =>
      if (c =? "=")%char then EmptyString :: split rest
      else
        match split rest with
        | part :: parts => String c part :: parts
        | [] => [String c EmptyString]
        end
  end.

(** The callback of [map] in [parseArgs]: the key and value of one
    argument. *)
Definition entry (s : string) : string * string :=
  match split (stripDashes s) with
  | [key; value] => (key, value)
  | _ =>
      if startsWithDashes s then (stripDashes s, "true"%string)
      else (s, "true"%string)
  end.

(** [args[key]] on the object [Object.fromEntries(entries)]: the value of
    the last entry with that key. *)
Fixpoint lookup (entries : list (string * string)) (key : string)
  : option string :=
  match entries with
  | [] => None
  | (k, v) :: rest =>
      match lookup rest key with
      | Some v' => Some v'
      | None => if String.eqb k key then Some v else None
      end
  end.

(** The white space [parseInt] skips, among the characters below 256. *)
Definition isWhiteSpace (c : ascii) : bool :=
  let n := N_of_ascii c in
  ((9 <=? n) && (n <=? 13) || (n =? 32) || (n =? 160))%N.

Fixpoint trimStart (s : string) : string :=
  match s with
  | String c rest => if isWhiteSpace c then trimStart rest else s
  | EmptyString => s
  end.

Definition digit (c : ascii) : option Z :=
  let n := Z.of_N (N_of_ascii c) in
  if ((48 <=? n) && (n <=? 57))%Z then Some (n - 48)%Z else None.

(** The value of the longest prefix of decimal digits, after the digits
    worth [acc] already read; [None] when there is no digit at all. *)
Fixpoint digits (acc : option Z) (s : string) : option Z :=
  match s with
  | String c rest =>
      match digit c with
      | Some d =>
          digits (Some (match acc with
                        | Some a => a * 10 + d
                        | None => d
                        end)%Z) rest
      | None => acc
      end
  | EmptyString => acc
  end.

(** [parseInt(s, 10)] *)
Definition parseInt (s : string) : number :=
  match trimStart s with
  | String "-" rest => option_map Z.opp (digits None rest)
  | String "+" rest => digits None rest
  | rest => digits None rest
  end.

(** [x ?? d] on a looked-up string *)
Definition orDefault (x : option string) (d : string) : string :=
  match x with
  | Some v => v
  | None => d
  end.

(** [parseArgs()], reading [process.argv] from its argument. *)
Definition parseArgs (argv : list string) : Params :=
  let args := map entry (skipn 2 argv) in
  let measures := parseInt (orDefault (lookup args "measures") "4") in
  let tempo := parseInt (orDefault (lookup args "tempo") "100") in
  let seed :=
    match lookup args "seed" with
    | Some EmptyString => None
    | other => other
    end in
  let lowMidi := parseInt (orDefault (lookup args "lowMidi") "55") in
  let highMidi := parseInt (orDefault (lookup args "highMidi") "76") in
  {| measures := measures; tempo := tempo; seed := seed;
     lowMidi := lowMidi; highMidi := highMidi |}.

End CLI.

(** *** Vocabulary of the further properties *)

(** The pitch [nextMidi] returns from [current] on the draws [r1], [r2]. *)
Definition nextPitch (low high current : Z) (r1 r2 : Q) : Z :=
  let candidate := (current + specDelta r1 r2)%Z in
  if (candidate <? low)%Z || (candidate >? high)%Z
  then clamp candidate low high
  else candidate.

(** Each pitch of [evs] is related by [R] to the pitch before it, the first
    one to [p]; [p'] is the last pitch. *)
Fixpoint pitchWalk (R : Z -> Z -> Prop) (p : Z) (evs : list Note) (p' : Z)
  : Prop :=
  match evs with
  | [] => p = p'
  | e :: rest => R p (midi e) /\ pitchWalk R (midi e) rest p'
  end.

(** The note events of a melody whose waits repeat the duration token of
    the note before; [token] is the wait of the first. *)
Fixpoint echoedNotes (token : string) (evs : list Note)
  : list NoteEventOptions :=
  match evs with
  | [] => []
  | e :: rest =>
      let duration := beatsToDurationString (durationBeats e) in
      {| pitch := [name e]; duration := duration; wait := token |}
        :: echoedNotes duration rest
  end.

(** The duration tokens of the five note values of the default pool. *)
Definition poolTokens : list string := ["1"; "2"; "4"; "8"; "T32"]%string.

(** The text holds an equals sign. *)
Fixpoint hasEquals (s : string) : bool :=
  match s with
  | EmptyString => false
  | String c rest => (c =? "=")%char || hasEquals rest
  end.

(** The option names [parseArgs] reads. *)
Definition optionNames : list string :=
  ["measures"; "tempo"; "seed"; "lowMidi"; "highMidi"]%string.

(** What [parseArgs] returns when no option is given. *)
Definition defaultParams : CLI.Params :=
  {| CLI.measures := Some 4%Z; CLI.tempo := Some 100%Z; CLI.seed := None;
     CLI.lowMidi := Some 55%Z; CLI.highMidi := Some 76%Z |}.

(* ================================================================== *)
(** * Properties *)

(** ** Numbers and arrays *)

Lemma ltb_spec (a b : Q) : JS.ltb a b = true <-> a < b.
Proof.
  unfold JS.ltb. rewrite negb_true_iff. split; intro H.
  - apply Qnot_le_lt. intro Hle. apply Qle_bool_iff in Hle. congruence.
  - destruct (Qle_bool b a) eqn:E; [|reflexivity].
    apply Qle_bool_iff in E. exfalso. apply (Qlt_not_le _ _ H E).
Qed.

Lemma ltb_false (a b : Q) : JS.ltb a b = false <-> b <= a.
Proof.
  unfold JS.ltb. rewrite negb_false_iff. apply Qle_bool_iff.
Qed.

Lemma floor_index_bounds (r : Q) (n : nat) :
  0 <= r < 1 -> (0 < n)%nat ->
  (0 <= JS.floor (r * inject_Z (Z.of_nat n)) < Z.of_nat n)%Z.
Proof.
  intros [H0 H1] Hn. unfold JS.floor.
  assert (Hpos : 0 < inject_Z (Z.of_nat n)).
  { change 0 with (inject_Z 0). rewrite <- Zlt_Qlt. lia. }
  split.
  - rewrite <- (Qfloor_Z 0). apply Qfloor_resp_le.
    apply Qmult_le_0_compat; [assumption | apply Qlt_le_weak; assumption].
  - rewrite Zlt_Qlt.
    apply Qle_lt_trans with (r * inject_Z (Z.of_nat n)); [apply Qfloor_le|].
    rewrite <- (Qmult_1_l (inject_Z (Z.of_nat n))) at 2.
    apply Qmult_lt_r; assumption.
Qed.

(** A draw in [0, 1) always selects an element of a non-empty array. *)
Lemma floor_index_defined (A : Type) (arr : list A) (r : Q) :
  0 <= r < 1 -> arr <> [] ->
  exists v, JS.index arr (JS.floor (r * JS.length arr)) = Some v /\ In v arr.
Proof.
  intros Hr Hne. unfold JS.length.
  assert (Hn : (0 < List.length arr)%nat).
  { destruct arr; [congruence | simpl; lia]. }
  pose proof (floor_index_bounds Hr Hn) as [Hlo Hhi].
  set (i := JS.floor _) in *. unfold JS.index.
  destruct (i <? 0)%Z eqn:E; [apply Z.ltb_lt in E; lia|].
  destruct (nth_error arr (Z.to_nat i)) as [v|] eqn:Hnth.
  - exists v. split; [reflexivity | eapply nth_error_In; eassumption].
  - apply nth_error_None in Hnth. lia.
Qed.

Lemma fold_plus_shift (l : list Q) (a : Q) :
  fold_left Qplus l a == a + fold_left Qplus l 0.
Proof.
  revert a. induction l as [|x l IH]; intro a; simpl.
  - ring.
  - rewrite (IH (a + x)), (IH (0 + x)). ring.
Qed.

Lemma sumOf_app (l1 l2 : list Q) : sumOf (l1 ++ l2) == sumOf l1 + sumOf l2.
Proof.
  unfold sumOf. rewrite fold_left_app. apply fold_plus_shift.
Qed.

Lemma sumOf_cons (x : Q) (l : list Q) : sumOf (x :: l) == x + sumOf l.
Proof.
  unfold sumOf. simpl. rewrite fold_plus_shift. ring.
Qed.

Lemma sumOf_scaled (c : Q) (l : list Q) :
  sumOf (map (fun frac => frac * c) l) == sumOf l * c.
Proof.
  induction l as [|x l IH].
  - unfold sumOf. simpl. ring.
  - simpl map. rewrite !sumOf_cons, IH. ring.
Qed.

(** Snapping leaves a list alone when it already sums to 1. *)
Lemma snap_closed (durations : list Q) :
  sumOf durations == 1 -> snap durations = durations.
Proof.
  intro H. unfold snap, JS.gtb.
  replace (JS.ltb EPS (Qabs (1 - sumOf durations))) with false; [reflexivity|].
  symmetry. apply ltb_false.
  assert (E : 1 - sumOf durations == 0) by (rewrite H; ring).
  rewrite E. discriminate.
Qed.

(** ** Random sources *)

Section SourceFacts.

Context {St : Type} {source : RandomSource St}.

Lemma unitSource_now (s : St) : unitSource s -> 0 <= fst (rand s) < 1.
Proof. intro H. exact (H O). Qed.

Lemma unitSource_next (s : St) : unitSource s -> unitSource (snd (rand s)).
Proof. intros H n. exact (H (S n)). Qed.

Lemma unitSource_later (n : nat) (s : St) :
  unitSource s -> unitSource (later n s).
Proof.
  revert s. induction n as [|n IH]; intros s H; simpl.
  - assumption.
  - apply IH, unitSource_next, H.
Qed.

End SourceFacts.

Lemma mulberry32_unit (a : Z) : 0 <= fst (mulberry32 a) < 1.
Proof.
  unfold mulberry32. cbv zeta. cbn [fst].
  set (u := JS.toUint32 _).
  assert (Hu : (0 <= u < 4294967296)%Z).
  { subst u. unfold JS.toUint32. apply Z.mod_pos_bound. reflexivity. }
  destruct Hu as [Hlo Hhi].
  rewrite Zle_Qle in Hlo. rewrite Zlt_Qlt in Hhi.
  change (inject_Z 0) with 0 in Hlo.
  change (inject_Z 4294967296) with 4294967296 in Hhi.
  split.
  - apply Qle_shift_div_l; [reflexivity | lra].
  - apply Qlt_shift_div_r; [reflexivity | lra].
Qed.

Lemma rand_Mulberry32 (a : Z) :
  rand (Mulberry32 a) = (fst (mulberry32 a), Mulberry32 (snd (mulberry32 a))).
Proof. unfold rand, PRNG_rand. destruct (mulberry32 a). reflexivity. Qed.

(** The seeded generator is a source whose draws lie in [0, 1). *)
Lemma Mulberry32_unitSource (a : Z) : unitSource (Mulberry32 a).
Proof.
  intro n. revert a. induction n as [|n IH]; intro a; cbn [later].
  - rewrite rand_Mulberry32. apply mulberry32_unit.
  - rewrite rand_Mulberry32. apply IH.
Qed.

(** So is [Math.random], when the engine's samples lie in [0, 1). *)
Lemma MathRandom_unitSource (samples : nat -> Q) (calls : nat) :
  (forall n, 0 <= samples n < 1) -> unitSource (MathRandom samples calls).
Proof.
  intros H n. revert calls. induction n as [|n IH]; intro calls; cbn [later].
  - apply H.
  - apply IH.
Qed.

Lemma zeros_unit (n : nat) : 0 <= zeros n < 1.
Proof. unfold zeros. split; [apply Qle_refl | reflexivity]. Qed.

(** ** The rhythm partitioner on the default pool *)

Lemma EPS_value : EPS == 1 # 1000000.
Proof. reflexivity. Qed.

(** The exact model takes the decisions of the binary64 program: the pools
    are the same numbers, and in each of the 17 states the loop can be in the
    two agree. *)
Lemma binary64_agrees :
  map (fun v64 => Qred (toQ v64)) RHYTHM_POOL64 = map Qred RHYTHM_POOL /\
  forallb agreesAt (seq 0 17) = true.
Proof. split; vm_compute; reflexivity. Qed.

Lemma pool_sixteenths (v : Q) :
  In v RHYTHM_POOL -> exists j, (1 <= j <= 16)%Z /\ v == inject_Z j * (1 # 16).
Proof.
  unfold RHYTHM_POOL. simpl.
  intros [H|[H|[H|[H|[H|[]]]]]]; subst v;
    [exists 16%Z | exists 8%Z | exists 4%Z | exists 2%Z | exists 1%Z];
    (split; [lia | reflexivity]).
Qed.

Lemma pool_at_least_sixteenth (v : Q) : In v RHYTHM_POOL -> 0.0625 <= v.
Proof.
  unfold RHYTHM_POOL. simpl.
  intros [H|[H|[H|[H|[H|[]]]]]]; subst v; discriminate.
Qed.

Section RhythmFacts.

Context {St : Type} {source : RandomSource St}.

(** A value the loop pushes comes from the pool and fits. *)
Lemma loopBranch_pick (pool : list Q) (used : Q) (s s' : St) (val : Q) :
  loopBranch pool used s = Pick (Some val) s' ->
  In val pool /\ val <= 1 - used + EPS /\ used < 1 - EPS /\ s' = snd (rand s).
Proof.
  unfold loopBranch.
  destruct (JS.ltb used (1 - EPS)) eqn:Hlt; [|discriminate].
  destruct (List.length _ =? 0)%nat; [discriminate|].
  destruct (rand s) as [r s1]. intro H. injection H as Hidx Hs.
  unfold JS.index in Hidx.
  destruct (_ <? 0)%Z; [discriminate|].
  apply nth_error_In, filter_In in Hidx. destruct Hidx as [Hin Hle].
  apply Qle_bool_iff in Hle. apply ltb_spec in Hlt.
  repeat split; auto.
Qed.

(** Below a full measure the sixteenth always fits, so a value is pushed. *)
Lemma loopBranch_open (used : Q) (s : St) :
  unitSource s -> used <= 15 # 16 ->
  exists val, loopBranch RHYTHM_POOL used s = Pick (Some val) (snd (rand s)).
Proof.
  intros Hs Hused. unfold loopBranch.
  pose proof EPS_value as HE.
  assert (Hlt : JS.ltb used (1 - EPS) = true) by (apply ltb_spec; lra).
  rewrite Hlt.
  set (candidates := filter _ RHYTHM_POOL).
  assert (Hin : In 0.0625 candidates).
  { apply filter_In. split.
    - unfold RHYTHM_POOL. simpl. tauto.
    - apply Qle_bool_iff. lra. }
  assert (Hne : candidates <> []) by (intro E; rewrite E in Hin; exact Hin).
  destruct (List.length candidates =? 0)%nat eqn:El.
  { apply Nat.eqb_eq, length_zero_iff_nil in El. contradiction. }
  pose proof (unitSource_now Hs) as Hr.
  destruct (rand s) as [r s1]. cbn [fst snd] in Hr |- *.
  destruct (floor_index_defined Hr Hne) as (val & Hval & _).
  rewrite Hval. exists val. reflexivity.
Qed.

(** At a full measure the loop is left. *)
Lemma loopBranch_full (pool : list Q) (used : Q) (s : St) :
  1 <= used -> loopBranch pool used s = Leave.
Proof.
  intro H. unfold loopBranch.
  pose proof EPS_value as HE.
  assert (Hlt : JS.ltb used (1 - EPS) = false) by (apply ltb_false; lra).
  rewrite Hlt. reflexivity.
Qed.

(** One push moves a multiple of 1/16 to a larger one, not above 1. *)
Lemma push_sixteenths (used val : Q) (k : Z) :
  used == inject_Z k * (1 # 16) -> In val RHYTHM_POOL -> val <= 1 - used + EPS ->
  exists j, (1 <= j <= 16 - k)%Z /\ used + val == inject_Z (k + j) * (1 # 16).
Proof.
  intros Hused Hin Hfit.
  destruct (pool_sixteenths Hin) as (j & Hj & Hval).
  pose proof EPS_value as HE.
  exists j. split.
  - assert (H : inject_Z (j + k) < inject_Z 17).
    { rewrite inject_Z_plus. change (inject_Z 17) with 17. lra. }
    rewrite <- Zlt_Qlt in H. lia.
  - rewrite inject_Z_plus. lra.
Qed.

End RhythmFacts.

Lemma full_measure (used : Q) : used == inject_Z 16 * (1 # 16) -> used == 1.
Proof. intro H. rewrite H. reflexivity. Qed.

Section MeasureFacts.

Context {St : Type} {source : RandomSource St}.

(** What a run of the loop delivers from a state whose [used] is [k]
    sixteenths: it needs at most [16 - k] pushes, never reads outside the
    candidates, and closes the measure. *)
Lemma measureLoop_run (fuel : nat) :
  forall (durations : list Q) (used : Q) (k : Z) (s : St),
    unitSource s -> (0 <= k <= 16)%Z -> used == inject_Z k * (1 # 16) ->
    match measureLoop fuel RHYTHM_POOL durations used s with
    | Done (ds, s') =>
        exists picked,
          ds = durations ++ picked /\ unitSource s' /\
          s' = later (List.length picked) s /\
          Forall (fun v => In v RHYTHM_POOL) picked /\
          used + sumOf picked == 1 /\
          ((k < 16)%Z -> picked <> [])
    | Undefined => False
    | OutOfFuel => (fuel < Z.to_nat (16 - k))%nat
    end.
Proof.
  induction fuel as [|fuel IH]; intros durations used k s Hs Hk Hused.
  - destruct (Z.eq_dec k 16) as [->|Hlt].
    + apply full_measure in Hused.
      cbn [measureLoop]. rewrite loopBranch_full by lra.
      exists []. rewrite app_nil_r.
      split; [reflexivity|]. split; [assumption|]. split; [reflexivity|].
      split; [constructor|]. split; [|lia].
      unfold sumOf. cbn [fold_left]. lra.
    + assert (Hu : used <= 15 # 16).
      { assert (H : inject_Z k <= inject_Z 15) by (rewrite <- Zle_Qle; lia).
        change (inject_Z 15) with 15 in H. lra. }
      destruct (loopBranch_open Hs Hu) as (val & Hval).
      cbn [measureLoop]. rewrite Hval. lia.
  - destruct (Z.eq_dec k 16) as [->|Hlt].
    + apply full_measure in Hused.
      cbn [measureLoop]. rewrite loopBranch_full by lra.
      exists []. rewrite app_nil_r.
      split; [reflexivity|]. split; [assumption|]. split; [reflexivity|].
      split; [constructor|]. split; [|lia].
      unfold sumOf. cbn [fold_left]. lra.
    + assert (Hu : used <= 15 # 16).
      { assert (H : inject_Z k <= inject_Z 15) by (rewrite <- Zle_Qle; lia).
        change (inject_Z 15) with 15 in H. lra. }
      destruct (loopBranch_open Hs Hu) as (val & Hval).
      destruct (loopBranch_pick _ _ _ Hval) as (Hin & Hfit & _ & _).
      destruct (push_sixteenths Hused Hin Hfit) as (j & Hj & Hnext).
      cbn [measureLoop]. rewrite Hval.
      assert (Hk' : (0 <= k + j <= 16)%Z) by lia.
      specialize (IH (durations ++ [val]) (used + val) (k + j)%Z
                     (snd (rand s)) (unitSource_next Hs) Hk' Hnext).
      destruct (measureLoop fuel RHYTHM_POOL (durations ++ [val])
                  (used + val) (snd (rand s))) as [[ds s']| |].
      * destruct IH as (picked & Hds & Hs' & Hlater & Hall & Hsum & _).
        exists (val :: picked).
        split; [rewrite Hds, <- app_assoc; reflexivity|].
        split; [assumption|]. split; [exact Hlater|].
        split; [constructor; assumption|]. split; [|discriminate].
        rewrite sumOf_cons. rewrite <- Hsum. ring.
      * exact IH.
      * lia.
Qed.

(** With 16 units of fuel or more the partitioner returns, and its
    result sums to 1. *)
Lemma generateMeasureDurations_closes (fuel : nat) (s : St) :
  unitSource s -> (16 <= fuel)%nat ->
  exists ds,
    generateMeasureDurations fuel RHYTHM_POOL s
      = Done (ds, later (List.length ds) s) /\
    measureLoop fuel RHYTHM_POOL [] 0 s = Done (ds, later (List.length ds) s) /\
    unitSource (later (List.length ds) s) /\
    Forall (fun v => In v RHYTHM_POOL) ds /\
    sumOf ds == 1 /\ ds <> [].
Proof.
  intros Hs Hfuel.
  assert (H0 : 0 == inject_Z 0 * (1 # 16)) by reflexivity.
  pose proof (@measureLoop_run fuel [] 0 0%Z s Hs ltac:(lia) H0) as H.
  unfold generateMeasureDurations, bind.
  destruct (measureLoop fuel RHYTHM_POOL [] 0 s) as [[ds s']| |].
  - destruct H as (picked & Hds & Hs' & Hlater & Hall & Hsum & Hne).
    simpl in Hds. subst ds.
    assert (Hone : sumOf picked == 1) by (rewrite <- Hsum; ring).
    exists picked. unfold ret. rewrite (snap_closed _ Hone). subst s'.
    split; [reflexivity|]. split; [reflexivity|]. split; [assumption|].
    split; [assumption|]. split; [assumption|]. apply Hne. lia.
  - contradiction.
  - simpl in H. lia.
Qed.

(** Every state in which the loop tests its condition has used a whole
    number of sixteenths, the sum of the durations pushed so far. *)
Lemma reached_sixteenths (s0 : St) (durations : list Q) (used : Q) (s : St) :
  unitSource s0 -> reached RHYTHM_POOL s0 durations used s ->
  unitSource s /\ sumOf durations == used /\
  exists k, (0 <= k <= 16)%Z /\ used == inject_Z k * (1 # 16).
Proof.
  intros Hs0 Hreach. induction Hreach as [|durations used s val s' _ IH Hstep].
  - split; [assumption|]. split; [reflexivity|].
    exists 0%Z. split; [lia | reflexivity].
  - destruct IH as (Hs & Hsum & k & Hk & Hused).
    destruct (loopBranch_pick _ _ _ Hstep) as (Hin & Hfit & _ & ->).
    destruct (push_sixteenths Hused Hin Hfit) as (j & Hj & Hnext).
    split; [apply unitSource_next, Hs|]. split.
    + rewrite sumOf_app, Hsum. unfold sumOf. simpl. ring.
    + exists (k + j)%Z. split; [lia | assumption].
Qed.

End MeasureFacts.

(** ** The pitch walker *)

(** A draw in [0, 1) indexes a four-element array by the quarter it falls
    in. *)
Lemma quarter_index (r : Q) (d0 d1 d2 d3 : Z) :
  0 <= r < 1 ->
  JS.index [d0; d1; d2; d3] (JS.floor (r * JS.length [d0; d1; d2; d3]))
  = Some (quarterOf r (d0, d1, d2, d3)).
Proof.
  intro Hr. unfold JS.length. cbn [List.length].
  assert (Hb := @floor_index_bounds r 4 Hr ltac:(lia)).
  change (inject_Z (Z.of_nat 4)) with 4 in *.
  pose proof (Qfloor_le (r * 4)) as Hlo.
  pose proof (Qlt_floor (r * 4)) as Hhi.
  unfold JS.floor in *. set (k := Qfloor (r * 4)) in *.
  assert (Hk : (k = 0 \/ k = 1 \/ k = 2 \/ k = 3)%Z) by lia.
  unfold quarterOf.
  destruct Hk as [E|[E|[E|E]]]; rewrite E in *; clear E.
  - change (inject_Z (0 + 1)) with 1 in Hhi.
    rewrite (proj2 (ltb_spec r (1 # 4))) by lra. reflexivity.
  - change (inject_Z 1) with 1 in Hlo. change (inject_Z (1 + 1)) with 2 in Hhi.
    rewrite (proj2 (ltb_false r (1 # 4))) by lra.
    rewrite (proj2 (ltb_spec r (2 # 4))) by lra. reflexivity.
  - change (inject_Z 2) with 2 in Hlo. change (inject_Z (2 + 1)) with 3 in Hhi.
    rewrite (proj2 (ltb_false r (1 # 4))) by lra.
    rewrite (proj2 (ltb_false r (2 # 4))) by lra.
    rewrite (proj2 (ltb_spec r (3 # 4))) by lra. reflexivity.
  - change (inject_Z 3) with 3 in Hlo.
    rewrite (proj2 (ltb_false r (1 # 4))) by lra.
    rewrite (proj2 (ltb_false r (2 # 4))) by lra.
    rewrite (proj2 (ltb_false r (3 # 4))) by lra. reflexivity.
Qed.

(** Clamping agrees with moving to the nearest bound of a proper range. *)
Lemma clamp_nearest (candidate low high : Z) :
  (low <= high)%Z ->
  (if (candidate <? low)%Z || (candidate >? high)%Z
   then clamp candidate low high else candidate)
  = nearestBound candidate low high.
Proof.
  intro H. unfold clamp, nearestBound.
  rewrite Z.gtb_ltb.
  destruct (candidate <? low)%Z eqn:E1; destruct (high <? candidate)%Z eqn:E2;
    cbn [orb];
    try apply Z.ltb_lt in E1; try apply Z.ltb_lt in E2;
    try apply Z.ltb_ge in E1; try apply Z.ltb_ge in E2; lia.
Qed.

Lemma nearestBound_inRange (candidate low high : Z) :
  (low <= high)%Z -> (low <= nearestBound candidate low high <= high)%Z.
Proof.
  intro H. unfold nearestBound.
  destruct (candidate <? low)%Z eqn:E1; [lia|].
  destruct (high <? candidate)%Z eqn:E2; [lia|].
  apply Z.ltb_ge in E1. apply Z.ltb_ge in E2. lia.
Qed.

Section WalkerFacts.

Context {St : Type} {source : RandomSource St}.

(** [nextMidi] takes two draws and moves by the delta they select. *)
Lemma nextMidi_run (current low high : Z) (s : St) :
  0 <= fst (rand (later 1 s)) < 1 ->
  nextMidi current low high s
  = Done
      (let candidate :=
         (current + specDelta (fst (rand s)) (fst (rand (later 1 s))))%Z in
       if (candidate <? low)%Z || (candidate >? high)%Z
       then clamp candidate low high else candidate,
       later 2 s).
Proof.
  cbn [later]. intro Hr. unfold nextMidi, bind, draw, specDelta.
  destruct (rand s) as [r1 s1]. cbn [fst snd] in *.
  destruct (JS.ltb r1 (8 # 10)).
  - destruct (rand s1) as [r2 s2]. cbn [fst snd] in *.
    rewrite (quarter_index _ _ _ _ Hr). reflexivity.
  - destruct (rand s1) as [r2 s2]. cbn [fst snd] in *.
    rewrite (quarter_index _ _ _ _ Hr). reflexivity.
Qed.

End WalkerFacts.

(** ** The melody assembler *)

Lemma chain_from (t u t' : Q) (evs : list Note) :
  t == u -> chain t evs t' -> chain u evs t'.
Proof.
  intros E H. destruct evs as [|e rest]; simpl in *.
  - rewrite <- E. assumption.
  - destruct H as [H1 H2]. split; [rewrite <- E|]; assumption.
Qed.

Lemma chain_app (evs1 evs2 : list Note) :
  forall t u t', chain t evs1 u -> chain u evs2 t' -> chain t (evs1 ++ evs2) t'.
Proof.
  induction evs1 as [|e rest IH]; intros t u t' H1 H2; simpl in *.
  - apply chain_from with u; [symmetry|]; assumption.
  - destruct H1 as [Hs Hr]. split; [assumption|]. eapply IH; eassumption.
Qed.

(** A chain read by position. *)
Lemma chain_nth (evs : list Note) :
  forall t t', chain t evs t' ->
    (forall e, nth_error evs 0 = Some e -> startBeats e == t) /\
    (forall i e e', nth_error evs i = Some e -> nth_error evs (S i) = Some e' ->
                    startBeats e' == startBeats e + durationBeats e).
Proof.
  induction evs as [|e0 rest IH]; intros t t' H.
  - split; intros; destruct i || idtac; discriminate.
  - destruct H as [Hs Hr]. destruct (IH _ _ Hr) as [Hhead Hnext]. split.
    + intros e He. injection He as <-. assumption.
    + intros [|i] e e' He He'.
      * injection He as <-. apply Hhead. exact He'.
      * eapply Hnext; eassumption.
Qed.

Lemma concat_length_ge (A : Type) (segs : list (list A)) :
  Forall (fun seg => seg <> []) segs ->
  (List.length segs <= List.length (List.concat segs))%nat.
Proof.
  induction 1 as [|seg segs Hne _ IH]; simpl.
  - lia.
  - rewrite length_app. destruct seg; [congruence | simpl; lia].
Qed.

Section AssemblerFacts.

Context {St : Type} {source : RandomSource St}.

Variable params : Params.

(** The inner loop appends one event per fraction, four beats to the
    whole, each starting where the previous one ends. *)
Lemma noteLoop_run (fracs : list Q) :
  forall (c : Cursor) (s : St),
    unitSource s ->
    exists c' s' seg,
      noteLoop params fracs c s = Done (c', s') /\ unitSource s' /\
      events c' = events c ++ seg /\
      map durationBeats seg = map (fun frac => frac * 4) fracs /\
      chain (tBeats c) seg (tBeats c') /\
      ((lowMidi params <= highMidi params)%Z ->
       Forall (inRange (lowMidi params) (highMidi params)) seg).
Proof.
  induction fracs as [|frac rest IH]; intros c s Hs.
  - exists c, s, []. cbn [noteLoop]. unfold ret. rewrite app_nil_r.
    repeat (split; [reflexivity || assumption|]).
    intros _. constructor.
  - cbn [noteLoop]. unfold bind at 1.
    rewrite nextMidi_run by (apply (Hs 1%nat)).
    cbv beta iota zeta.
    set (m := if (_ || _)%bool then clamp _ _ _ else _).
    set (c1 := Build_Cursor _ _ _).
    destruct (IH c1 (later 2 s) (unitSource_later 2 Hs))
      as (c' & s' & seg & Hrun & Hs' & Hev & Hdur & Hchain & Hrange).
    set (e := Build_Note m (midiToName m) (tBeats c) (frac * 4)) in *.
    exists c', s', (e :: seg). rewrite Hrun.
    split; [reflexivity|]. split; [assumption|].
    split; [rewrite Hev; subst c1; cbn [events]; rewrite <- app_assoc;
            reflexivity|].
    split; [cbn [map]; rewrite Hdur; reflexivity|].
    split; [split; [reflexivity | exact Hchain]|].
    intro Hlh. constructor; [|apply Hrange, Hlh].
    unfold inRange. subst e m. cbn [midi].
    rewrite (clamp_nearest _ Hlh). apply nearestBound_inRange, Hlh.
Qed.

(** The outer loop appends one closed, non-empty measure per bar. *)
Lemma barLoop_run (fuel : nat) (bars : nat) :
  (16 <= fuel)%nat ->
  forall (c : Cursor) (s : St),
    unitSource s ->
    exists c' s' segs,
      barLoop fuel params bars c s = Done (c', s') /\ unitSource s' /\
      events c' = events c ++ List.concat segs /\
      List.length segs = bars /\
      Forall (fun seg => seg <> [] /\ beatsOf seg == 4) segs /\
      chain (tBeats c) (List.concat segs) (tBeats c') /\
      ((lowMidi params <= highMidi params)%Z ->
       Forall (inRange (lowMidi params) (highMidi params))
              (List.concat segs)).
Proof.
  intro Hfuel. induction bars as [|bars IH]; intros c s Hs.
  - exists c, s, []. cbn [barLoop List.concat]. unfold ret. rewrite app_nil_r.
    repeat (split; [reflexivity || assumption || constructor|]).
    intros _. constructor.
  - cbn [barLoop]. unfold bind at 1.
    destruct (generateMeasureDurations_closes Hs Hfuel)
      as (ds & Hgen & _ & Hs1 & _ & Hsum & Hne).
    rewrite Hgen. unfold bind at 1.
    destruct (noteLoop_run ds c Hs1)
      as (c1 & s1 & seg & Hrun & Hs1' & Hev & Hdur & Hchain & Hrange).
    rewrite Hrun.
    destruct (IH c1 s1 Hs1')
      as (c' & s' & segs & Hbars & Hs' & Hev' & Hlen & Hall & Hchain' & Hrange').
    exists c', s', (seg :: segs). cbn [List.concat].
    split; [assumption|]. split; [assumption|].
    split; [rewrite Hev', Hev, <- app_assoc; reflexivity|].
    split; [cbn [List.length]; congruence|].
    split; [|split].
    + constructor; [|assumption]. split.
      * intro E. subst seg. destruct ds; [congruence | discriminate].
      * unfold beatsOf. rewrite Hdur, sumOf_scaled, Hsum. reflexivity.
    + eapply chain_app; eassumption.
    + intro Hlh. apply Forall_app. split; auto.
Qed.

End AssemblerFacts.

(** The loops read nothing of the parameters but the two pitch bounds. *)
Lemma noteLoop_bounds (St : Type) (source : RandomSource St)
      (p1 p2 : Params) (fracs : list Q) :
  lowMidi p1 = lowMidi p2 -> highMidi p1 = highMidi p2 ->
  forall (c : Cursor) (s : St), noteLoop p1 fracs c s = noteLoop p2 fracs c s.
Proof.
  intros Hlow Hhigh. induction fracs as [|frac rest IH]; intros c s.
  - reflexivity.
  - cbn [noteLoop]. unfold bind. rewrite Hlow, Hhigh.
    destruct (nextMidi (currentMidi c) (lowMidi p2) (highMidi p2) s)
      as [[m s']| |]; [apply IH | reflexivity | reflexivity].
Qed.

Lemma barLoop_bounds (St : Type) (source : RandomSource St)
      (p1 p2 : Params) (fuel bars : nat) :
  lowMidi p1 = lowMidi p2 -> highMidi p1 = highMidi p2 ->
  forall (c : Cursor) (s : St),
    barLoop fuel p1 bars c s = barLoop fuel p2 bars c s.
Proof.
  intros Hlow Hhigh. induction bars as [|bars IH]; intros c s.
  - reflexivity.
  - cbn [barLoop]. unfold bind at 1 3.
    destruct (generateMeasureDurations fuel RHYTHM_POOL s)
      as [[ds s1]| |]; [|reflexivity|reflexivity].
    unfold bind. rewrite (noteLoop_bounds _ p1 p2 ds Hlow Hhigh).
    destruct (noteLoop p2 ds c s1) as [[c' s']| |];
      [apply IH | reflexivity | reflexivity].
Qed.

(** A run of [generateMelody] on a source with draws in [0, 1): the melody
    is made of one closed measure per requested bar. *)
Lemma generateMelody_run (engine : nat -> Q) (fuel : nat) (params : Params) :
  unitSource (makePRNG engine (seed params)) -> (16 <= fuel)%nat ->
  exists segs t',
    generateMelody engine fuel params = Done (List.concat segs) /\
    List.length segs = Z.to_nat (measures params) /\
    Forall (fun seg => seg <> [] /\ beatsOf seg == 4) segs /\
    chain 0 (List.concat segs) t' /\
    ((lowMidi params <= highMidi params)%Z ->
     Forall (inRange (lowMidi params) (highMidi params)) (List.concat segs)).
Proof.
  intros Hs Hfuel. unfold generateMelody.
  set (c0 := Build_Cursor _ _ _).
  destruct (barLoop_run params (Z.to_nat (measures params)) Hfuel c0 Hs)
    as (c' & s' & segs & Hrun & _ & Hev & Hlen & Hall & Hchain & Hrange).
  rewrite Hrun. exists segs, (tBeats c').
  split; [rewrite Hev; reflexivity|]. auto.
Qed.

(** ** Fuel *)

Section FuelFacts.

Context {St : Type} {source : RandomSource St}.

(** A loop that returned keeps its result when given more fuel. *)
Lemma measureLoop_more_fuel (pool : list Q) (fuel : nat) :
  forall (fuel' : nat) (durations : list Q) (used : Q) (s : St)
         (result : list Q * St),
    (fuel <= fuel')%nat ->
    measureLoop fuel pool durations used s = Done result ->
    measureLoop fuel' pool durations used s = Done result.
Proof.
  induction fuel as [|fuel IH]; intros fuel' durations used s result Hle Hrun.
  - destruct fuel'; cbn [measureLoop] in *;
      destruct (loopBranch pool used s) as [| |[val|] s1];
      try discriminate; assumption.
  - destruct fuel' as [|fuel']; [lia|]. cbn [measureLoop] in *.
    destruct (loopBranch pool used s) as [| |[val|] s1];
      try discriminate; try assumption.
    apply IH; [lia | assumption].
Qed.

(** A run of the loop moves through reached states and ends in one, either
    by leaving the loop or by the safety net. *)
Lemma measureLoop_ends_reached (pool : list Q) (s0 : St) (fuel : nat) :
  forall (durations : list Q) (used : Q) (s : St) (ds : list Q) (s' : St),
    reached pool s0 durations used s ->
    measureLoop fuel pool durations used s = Done (ds, s') ->
    exists durations' used',
      reached pool s0 durations' used' s' /\
      ((loopBranch pool used' s' = Leave /\ ds = durations') \/
       (exists remaining,
           loopBranch pool used' s' = SafetyNet remaining /\
           ds = durations' ++ [remaining])).
Proof.
  induction fuel as [|fuel IH]; intros durations used s ds s' Hreach Hrun;
    cbn [measureLoop] in Hrun;
    destruct (loopBranch pool used s) as [|remaining|[val|] s1] eqn:Hstep;
    try discriminate.
  - injection Hrun as <- <-. exists durations, used. split; [assumption|].
    left. split; [assumption | reflexivity].
  - injection Hrun as <- <-. exists durations, used. split; [assumption|].
    right. exists remaining. split; [assumption | reflexivity].
  - injection Hrun as <- <-. exists durations, used. split; [assumption|].
    left. split; [assumption | reflexivity].
  - injection Hrun as <- <-. exists durations, used. split; [assumption|].
    right. exists remaining. split; [assumption | reflexivity].
  - apply (IH _ _ _ _ _ (reached_push Hreach Hstep) Hrun).
Qed.

(** Pool values are at least a sixteenth, so a closed measure holds at
    most 16 of them. *)
Lemma pool_values_count (picked : list Q) :
  Forall (fun v => In v RHYTHM_POOL) picked ->
  inject_Z (Z.of_nat (List.length picked)) * (1 # 16) <= sumOf picked.
Proof.
  induction 1 as [|v picked Hv _ IH].
  - unfold sumOf. cbn. discriminate.
  - rewrite sumOf_cons. cbn [List.length].
    rewrite Nat2Z.inj_succ. unfold Z.succ. rewrite inject_Z_plus.
    apply pool_at_least_sixteenth in Hv.
    change (inject_Z 1) with 1. lra.
Qed.

Lemma closed_measure_length (picked : list Q) :
  Forall (fun v => In v RHYTHM_POOL) picked -> sumOf picked == 1 ->
  (List.length picked <= 16)%nat.
Proof.
  intros Hall Hsum. apply pool_values_count in Hall.
  assert (H : inject_Z (Z.of_nat (List.length picked)) <= inject_Z 16).
  { change (inject_Z 16) with 16. lra. }
  rewrite <- Zle_Qle in H. lia.
Qed.

End FuelFacts.

(* ================================================================== *)
(** * The claims of the specification *)

(** ** Three runs of the model *)

(** Scenario A: the seed "hello" fills the measure with one whole note and
    steps up a semitone from middle C. *)
Example run_scenarioA :
  generateMelody zeros 16 scenarioA
  = Done [ {| midi := 61; name := "C#4"; startBeats := 0;
              durationBeats := 1.0 * 4 |} ].
Proof. vm_compute. reflexivity. Qed.

(** The empty seed, [Math.random] drawing 0 each time: one whole note, two
    semitones below middle C. *)
Example run_unseeded_zeros :
  generateMelody zeros 16 unseeded
  = Done [ {| midi := 58; name := "A#3"; startBeats := 0;
              durationBeats := 1.0 * 4 |} ].
Proof. vm_compute. reflexivity. Qed.

(** The empty seed, [Math.random] drawing 0.9 each time: sixteen sixteenth
    notes leaping up by fifths into the upper bound. *)
Example run_unseeded_nineTenths :
  match generateMelody nineTenths 16 unseeded with
  | Done melody => map midi melody
  | _ => []
  end
  = [67; 74; 76; 76; 76; 76; 76; 76; 76; 76; 76; 76; 76; 76; 76; 76]%Z.
Proof. vm_compute. reflexivity. Qed.

Lemma nineTenths_unit (n : nat) : 0 <= nineTenths n < 1.
Proof. unfold nineTenths. split; [discriminate | reflexivity]. Qed.

(** C1, as stated, fails: "for every fixed seed string and fixed generation
    parameters, two independent runs of generateMelody produce identical
    melodies".  With the empty string as seed the run draws from
    [Math.random], and two runs whose engines deliver different samples
    produce different melodies. *)
Lemma empty_seed_runs_differ :
  ~ (forall (str : string) (params : Params) (fuel : nat)
            (engine1 engine2 : nat -> Q),
        seed params = Some str ->
        generateMelody engine1 fuel params = generateMelody engine2 fuel params).
Proof.
  intro H.
  specialize (H ""%string unseeded 16%nat zeros nineTenths eq_refl).
  vm_compute in H. discriminate H.
Qed.

(** C1, amended: for every fixed non-empty seed string and fixed generation
    parameters, two independent runs of generateMelody produce identical
    melodies, the same sequence of (pitch, name, start, duration) events,
    element for element; with 16 units of fuel per measure the runs do
    return a melody. *)
Theorem seeded_runs_identical
        (str : string) (params : Params) (fuel : nat)
        (engine1 engine2 : nat -> Q) :
  seed params = Some str -> str <> ""%string ->
  generateMelody engine1 fuel params = generateMelody engine2 fuel params /\
  ((16 <= fuel)%nat ->
   exists melody, generateMelody engine1 fuel params = Done melody).
Proof.
  intros Hseed Hne.
  assert (Hprng : forall engine,
             makePRNG engine (seed params)
             = Mulberry32 (fst (xmur3_next (xmur3 str)))).
  { intro engine. rewrite Hseed. unfold makePRNG.
    destruct str as [|c rest]; [congruence | reflexivity]. }
  split.
  - unfold generateMelody. rewrite (Hprng engine1), (Hprng engine2).
    reflexivity.
  - intro Hfuel.
    destruct (@generateMelody_run engine1 fuel params) as (segs & t' & Hrun & _).
    + rewrite Hprng. apply Mulberry32_unitSource.
    + assumption.
    + exists (List.concat segs). assumption.
Qed.

Lemma seeded_runs_identical_witness :
  generateMelody zeros 16 scenarioA = generateMelody nineTenths 16 scenarioA /\
  exists melody, generateMelody zeros 16 scenarioA = Done melody.
Proof.
  destruct (@seeded_runs_identical "hello"%string scenarioA 16%nat zeros
              nineTenths) as [Hsame Hruns].
  - reflexivity.
  - discriminate.
  - split; [exact Hsame | apply Hruns; lia].
Defined.

(** C2: for every random source and every measure generated, the durations
    produced for that measure sum to exactly 1 measure, 4 beats after the
    conversion by 4 and so within the tolerance 1e-6: the list returned by
    generateMeasureDurations sums to exactly 1 after the final snapping
    step, and the melody of generateMelody splits into one run of events per
    measure, each run 4 beats long. *)
Theorem measure_closure
        (St : Type) (source : RandomSource St) (s : St)
        (engine : nat -> Q) (fuel : nat) (params : Params) :
  unitSource s -> unitSource (makePRNG engine (seed params)) ->
  (16 <= fuel)%nat ->
  (exists ds s',
      generateMeasureDurations fuel RHYTHM_POOL s = Done (ds, s') /\
      sumOf ds == 1 /\
      sumOf (map (fun frac => frac * 4) ds) == 4) /\
  (exists perMeasure,
      generateMelody engine fuel params = Done (List.concat perMeasure) /\
      List.length perMeasure = Z.to_nat (measures params) /\
      Forall (fun evs => beatsOf evs == 4 /\ Qabs (beatsOf evs - 4) <= EPS)
             perMeasure).
Proof.
  intros Hs Hprng Hfuel. split.
  - destruct (generateMeasureDurations_closes Hs Hfuel)
      as (ds & Hgen & _ & _ & _ & Hsum & _).
    exists ds, (later (List.length ds) s).
    split; [assumption|]. split; [assumption|].
    rewrite sumOf_scaled, Hsum. reflexivity.
  - destruct (generateMelody_run engine params Hprng Hfuel)
      as (segs & t' & Hrun & Hlen & Hall & _).
    exists segs. split; [assumption|]. split; [assumption|].
    eapply Forall_impl; [|exact Hall].
    intros evs [_ Hbeats]. split; [assumption|].
    rewrite Hbeats. discriminate.
Qed.

Lemma measure_closure_witness :
  (exists ds s',
      generateMeasureDurations 16 RHYTHM_POOL (Mulberry32 0) = Done (ds, s') /\
      sumOf ds == 1 /\
      sumOf (map (fun frac => frac * 4) ds) == 4) /\
  (exists perMeasure,
      generateMelody zeros 16 scenarioA = Done (List.concat perMeasure) /\
      List.length perMeasure = Z.to_nat (measures scenarioA) /\
      Forall (fun evs => beatsOf evs == 4 /\ Qabs (beatsOf evs - 4) <= EPS)
             perMeasure).
Proof.
  apply (@measure_closure PRNG PRNG_rand (Mulberry32 0) zeros 16%nat scenarioA).
  - apply Mulberry32_unitSource.
  - apply Mulberry32_unitSource.
  - lia.
Defined.

(** C3: under the precondition low <= high, every NoteEvent produced by
    generateMelody has low <= pitch <= high; the initial pitch (60 clamped
    into [low, high]) and every pitch returned by nextMidi lie in the
    range. *)
Theorem range_containment
        (St : Type) (source : RandomSource St) (s : St) (current : Z)
        (engine : nat -> Q) (fuel : nat) (params : Params) :
  (lowMidi params <= highMidi params)%Z ->
  unitSource s -> unitSource (makePRNG engine (seed params)) ->
  (16 <= fuel)%nat ->
  (lowMidi params <= clamp 60 (lowMidi params) (highMidi params)
   <= highMidi params)%Z /\
  (exists pitch s',
      nextMidi current (lowMidi params) (highMidi params) s = Done (pitch, s') /\
      (lowMidi params <= pitch <= highMidi params)%Z) /\
  (exists melody,
      generateMelody engine fuel params = Done melody /\
      Forall (fun e => (lowMidi params <= midi e <= highMidi params)%Z) melody).
Proof.
  intros Hlh Hs Hprng Hfuel. split; [|split].
  - unfold clamp. lia.
  - rewrite (nextMidi_run current (lowMidi params) (highMidi params) s (Hs 1%nat)).
    eexists _, _. split; [reflexivity|]. cbv zeta.
    rewrite (clamp_nearest _ Hlh). apply nearestBound_inRange, Hlh.
  - destruct (generateMelody_run engine params Hprng Hfuel)
      as (segs & t' & Hrun & _ & _ & _ & Hrange).
    exists (List.concat segs). split; [assumption|]. apply Hrange, Hlh.
Qed.

Lemma range_containment_witness :
  (55 <= clamp 60 55 76 <= 76)%Z /\
  (exists pitch s',
      nextMidi 76 55 76 (Mulberry32 0) = Done (pitch, s') /\
      (55 <= pitch <= 76)%Z) /\
  (exists melody,
      generateMelody zeros 16 scenarioA = Done melody /\
      Forall (fun e => (55 <= midi e <= 76)%Z) melody).
Proof.
  apply (@range_containment PRNG PRNG_rand (Mulberry32 0) 76%Z zeros 16%nat
           scenarioA).
  - simpl. lia.
  - apply Mulberry32_unitSource.
  - apply Mulberry32_unitSource.
  - lia.
Defined.

(** C4: for every melody produced by generateMelody, consecutive events
    satisfy start[i+1] == start[i] + duration[i] for all i, and the first
    event's start time is 0. *)
Theorem contiguity (engine : nat -> Q) (fuel : nat) (params : Params) :
  unitSource (makePRNG engine (seed params)) -> (16 <= fuel)%nat ->
  exists melody,
    generateMelody engine fuel params = Done melody /\
    (forall e, nth_error melody 0 = Some e -> startBeats e == 0) /\
    (forall i e e',
        nth_error melody i = Some e -> nth_error melody (S i) = Some e' ->
        startBeats e' == startBeats e + durationBeats e).
Proof.
  intros Hprng Hfuel.
  destruct (generateMelody_run engine params Hprng Hfuel)
    as (segs & t' & Hrun & _ & _ & Hchain & _).
  exists (List.concat segs). split; [assumption|].
  exact (chain_nth _ _ _ Hchain).
Qed.

Lemma contiguity_witness :
  exists melody,
    generateMelody nineTenths 16 unseeded = Done melody /\
    (forall e, nth_error melody 0 = Some e -> startBeats e == 0) /\
    (forall i e e',
        nth_error melody i = Some e -> nth_error melody (S i) = Some e' ->
        startBeats e' == startBeats e + durationBeats e).
Proof.
  apply (@contiguity nineTenths 16%nat unseeded).
  - apply MathRandom_unitSource, nineTenths_unit.
  - lia.
Defined.

(** C5: nextMidi implements: if the first random draw is below 0.8, the
    delta is chosen uniformly (by a second draw) from {-2, -1, +1, +2};
    otherwise uniformly from {-7, -5, +5, +7}; and if current + delta falls
    outside [low, high] the result is the nearest bound (hard clamp, not
    reflection); otherwise it is current + delta. *)
Theorem nextMidi_step_or_leap
        (St : Type) (source : RandomSource St) (s : St) (current low high : Z) :
  0 <= fst (rand (later 1 s)) < 1 -> (low <= high)%Z ->
  nextMidi current low high s
  = Done (nearestBound
            (current + specDelta (fst (rand s)) (fst (rand (later 1 s))))
            low high,
          later 2 s).
Proof.
  intros Hr Hlh. rewrite (nextMidi_run current low high s Hr). cbv zeta.
  rewrite (clamp_nearest _ Hlh). reflexivity.
Qed.

Lemma nextMidi_step_or_leap_witness :
  nextMidi 76 55 76 (MathRandom nineTenths 0)
  = Done (nearestBound (76 + specDelta 0.9 0.9) 55 76,
          MathRandom nineTenths 2).
Proof.
  apply (@nextMidi_step_or_leap PRNG PRNG_rand (MathRandom nineTenths 0)
           76%Z 55%Z 76%Z).
  - split; [discriminate | reflexivity].
  - lia.
Defined.

(** C6: the rhythm-partitioning loop terminates for every random source
    whose draws lie in [0,1): generateMeasureDurations always returns after
    finitely many iterations, at most 16, since each iteration adds a pool
    value of at least 0.0625 to the used total (the safety-net break is the
    only other way through the loop body). *)
Theorem partition_terminates
        (St : Type) (source : RandomSource St) (s : St) :
  unitSource s ->
  (exists ds s',
      (forall fuel, (16 <= fuel)%nat ->
                    generateMeasureDurations fuel RHYTHM_POOL s = Done (ds, s')) /\
      (List.length ds <= 16)%nat) /\
  (forall durations used s1,
      reached RHYTHM_POOL s durations used s1 ->
      match loopBranch RHYTHM_POOL used s1 with
      | Pick (Some val) _ => 0.0625 <= val
      | Pick None _ => False
      | SafetyNet _ | Leave => True
      end).
Proof.
  intro Hs. split.
  - destruct (@generateMeasureDurations_closes St source 16%nat s Hs (le_n 16))
      as (ds & _ & Hloop & _ & Hall & Hsum & _).
    exists ds, (later (List.length ds) s). split.
    + intros fuel Hfuel. unfold generateMeasureDurations, bind.
      rewrite (measureLoop_more_fuel _ _ _ _ Hfuel Hloop).
      unfold ret. rewrite (snap_closed _ Hsum). reflexivity.
    + apply closed_measure_length; assumption.
  - intros durations used s1 Hreach.
    destruct (reached_sixteenths Hs Hreach) as (Hs1 & _ & k & Hk & Hused).
    destruct (Z.eq_dec k 16) as [->|Hlt].
    + apply full_measure in Hused.
      rewrite loopBranch_full by lra. exact I.
    + assert (Hu : used <= 15 # 16).
      { assert (H : inject_Z k <= inject_Z 15) by (rewrite <- Zle_Qle; lia).
        change (inject_Z 15) with 15 in H. lra. }
      destruct (loopBranch_open Hs1 Hu) as (val & Hval). rewrite Hval.
      apply pool_at_least_sixteenth.
      exact (proj1 (loopBranch_pick _ _ _ Hval)).
Qed.

Lemma partition_terminates_witness :
  (exists ds s',
      (forall fuel, (16 <= fuel)%nat ->
                    generateMeasureDurations fuel RHYTHM_POOL
                      (MathRandom nineTenths 0) = Done (ds, s')) /\
      (List.length ds <= 16)%nat) /\
  (forall durations used s1,
      reached RHYTHM_POOL (MathRandom nineTenths 0) durations used s1 ->
      match loopBranch RHYTHM_POOL used s1 with
      | Pick (Some val) _ => 0.0625 <= val
      | Pick None _ => False
      | SafetyNet _ | Leave => True
      end).
Proof.
  apply (@partition_terminates PRNG PRNG_rand (MathRandom nineTenths 0)).
  apply MathRandom_unitSource, nineTenths_unit.
Defined.

(** ** Duration tokens *)

Lemma mapLookup_miss (map : list (Q * string)) (beats : Q) :
  Forall (fun entry => ~ fst entry == beats) map -> mapLookup map beats = None.
Proof.
  induction 1 as [|[key token] rest Hkey _ IH]; cbn [mapLookup].
  - reflexivity.
  - destruct (Qeq_bool key beats) eqn:E; [|assumption].
    apply Qeq_bool_iff in E. contradiction.
Qed.

Lemma beatsToDurationString_compat (b b' : Q) :
  b == b' -> beatsToDurationString b = beatsToDurationString b'.
Proof.
  intro E. unfold beatsToDurationString, JS.round.
  assert (Hmap : forall map, mapLookup map b = mapLookup map b').
  { induction map as [|[key token] rest IH]; cbn [mapLookup].
    - reflexivity.
    - rewrite IH. rewrite E. reflexivity. }
  rewrite Hmap.
  assert (Hfl : Qfloor (b * 128 + 0.5) = Qfloor (b' * 128 + 0.5)).
  { apply Qfloor_comp. rewrite E. reflexivity. }
  rewrite Hfl. reflexivity.
Qed.

(** C7: beatsToDurationString maps the tabulated beat values 0, 0.5, 1,
    1.5, 2, 3, 4 to the tokens T0, 8, 4, d4, 2, d2, 1 respectively, and maps
    every other beat value b to the token "T" followed by round(b * 128); in
    particular 1.5 maps to "d4" and 0.375 maps to "T48". *)
Theorem beatsToDurationString_table (b : Q) :
  (b == 0 -> beatsToDurationString b = "T0"%string) /\
  (b == 0.5 -> beatsToDurationString b = "8"%string) /\
  (b == 1 -> beatsToDurationString b = "4"%string) /\
  (b == 1.5 -> beatsToDurationString b = "d4"%string) /\
  (b == 2 -> beatsToDurationString b = "2"%string) /\
  (b == 3 -> beatsToDurationString b = "d2"%string) /\
  (b == 4 -> beatsToDurationString b = "1"%string) /\
  (~ b == 0 -> ~ b == 0.5 -> ~ b == 1 -> ~ b == 1.5 -> ~ b == 2 ->
   ~ b == 3 -> ~ b == 4 ->
   beatsToDurationString b
   = ("T" ++ JS.String_of_int (JS.round (b * 128)))%string) /\
  beatsToDurationString 1.5 = "d4"%string /\
  beatsToDurationString 0.375 = "T48"%string.
Proof.
  repeat match goal with
         | |- (_ == _ -> _) /\ _ =>
             split; [intro E; rewrite (beatsToDurationString_compat E);
                     reflexivity|]
         end.
  split; [|split; reflexivity].
  intros H0 H1 H2 H3 H4 H5 H6. unfold beatsToDurationString.
  rewrite mapLookup_miss; [reflexivity|].
  unfold durationMap.
  repeat (constructor; [cbn [fst]; intro E; symmetry in E; contradiction|]).
  constructor.
Qed.

Lemma beatsToDurationString_table_witness :
  beatsToDurationString (3 # 2) = "d4"%string /\
  beatsToDurationString (3 # 8)
  = ("T" ++ JS.String_of_int (JS.round ((3 # 8) * 128)))%string.
Proof.
  split.
  - apply (proj1 (proj2 (proj2 (proj2 (beatsToDurationString_table (3 # 2)))))).
    reflexivity.
  - apply (proj1 (proj2 (proj2 (proj2 (proj2 (proj2 (proj2
             (proj2 (beatsToDurationString_table (3 # 8))))))))));
      discriminate.
Defined.

(** C8: for every random source and every measures parameter of at least
    1, the melody returned by generateMelody contains at least [measures]
    events: each call to generateMeasureDurations returns a non-empty
    list. *)
Theorem event_count_lower_bound
        (St : Type) (source : RandomSource St) (s : St)
        (engine : nat -> Q) (fuel : nat) (params : Params) :
  unitSource s -> unitSource (makePRNG engine (seed params)) ->
  (16 <= fuel)%nat -> (1 <= measures params)%Z ->
  (exists ds s',
      generateMeasureDurations fuel RHYTHM_POOL s = Done (ds, s') /\
      ds <> []) /\
  (exists melody,
      generateMelody engine fuel params = Done melody /\
      (measures params <= Z.of_nat (List.length melody))%Z).
Proof.
  intros Hs Hprng Hfuel Hmeasures. split.
  - destruct (generateMeasureDurations_closes Hs Hfuel)
      as (ds & Hgen & _ & _ & _ & _ & Hne).
    exists ds, (later (List.length ds) s). split; assumption.
  - destruct (generateMelody_run engine params Hprng Hfuel)
      as (segs & t' & Hrun & Hlen & Hall & _).
    exists (List.concat segs). split; [assumption|].
    assert (Hne : Forall (fun seg : list Note => seg <> []) segs).
    { eapply Forall_impl; [|exact Hall]. intros seg [H _]. exact H. }
    apply concat_length_ge in Hne. lia.
Qed.

Lemma event_count_lower_bound_witness :
  (exists ds s',
      generateMeasureDurations 16 RHYTHM_POOL (Mulberry32 0) = Done (ds, s') /\
      ds <> []) /\
  (exists melody,
      generateMelody zeros 16 scenarioA = Done melody /\
      (measures scenarioA <= Z.of_nat (List.length melody))%Z).
Proof.
  apply (@event_count_lower_bound PRNG PRNG_rand (Mulberry32 0) zeros 16%nat
           scenarioA).
  - apply Mulberry32_unitSource.
  - apply Mulberry32_unitSource.
  - lia.
  - simpl. lia.
Defined.

(** C9: with the default pool {1, 0.5, 0.25, 0.125, 0.0625} and any random
    source whose draws lie in [0,1), the two corrective branches of
    generateMeasureDurations are unreachable: the candidate subset is never
    empty (the safety-net push of [remaining] never executes) and the
    loop's durations already sum to exactly 1, so the final last-duration
    adjustment never fires. *)
Theorem corrective_branches_unreachable
        (St : Type) (source : RandomSource St) (s0 : St) :
  unitSource s0 ->
  (forall durations used s,
      reached RHYTHM_POOL s0 durations used s ->
      (JS.ltb used (1 - EPS) = true ->
       filter (fun v => Qle_bool v (1 - used + EPS)) RHYTHM_POOL <> []) /\
      (forall remaining,
          loopBranch RHYTHM_POOL used s <> SafetyNet remaining)) /\
  (forall fuel durations s',
      measureLoop fuel RHYTHM_POOL [] 0 s0 = Done (durations, s') ->
      sumOf durations == 1 /\
      JS.gtb (Qabs (1 - sumOf durations)) EPS = false /\
      generateMeasureDurations fuel RHYTHM_POOL s0 = Done (durations, s')).
Proof.
  intro Hs0. split.
  - intros durations used s Hreach.
    destruct (reached_sixteenths Hs0 Hreach) as (Hs & _ & k & Hk & Hused).
    pose proof EPS_value as HE. split.
    + intros Hlt Hnil. apply ltb_spec in Hlt.
      assert (Hin : In 0.0625
                       (filter (fun v => Qle_bool v (1 - used + EPS)) RHYTHM_POOL)).
      { apply filter_In. split.
        - unfold RHYTHM_POOL. simpl. tauto.
        - apply Qle_bool_iff.
          assert (Hk15 : (k <= 15)%Z).
          { assert (H : inject_Z k < inject_Z 16).
            { change (inject_Z 16) with 16. lra. }
            rewrite <- Zlt_Qlt in H. lia. }
          assert (H : inject_Z k <= inject_Z 15) by (rewrite <- Zle_Qle; lia).
          change (inject_Z 15) with 15 in H. lra. }
      rewrite Hnil in Hin. exact Hin.
    + intros remaining Hnet.
      destruct (Z.eq_dec k 16) as [->|Hlt].
      * apply full_measure in Hused.
        rewrite loopBranch_full in Hnet by lra. discriminate.
      * assert (Hu : used <= 15 # 16).
        { assert (H : inject_Z k <= inject_Z 15) by (rewrite <- Zle_Qle; lia).
          change (inject_Z 15) with 15 in H. lra. }
        destruct (loopBranch_open Hs Hu) as (val & Hval).
        rewrite Hval in Hnet. discriminate.
  - intros fuel durations s' Hrun.
    assert (H0 : 0 == inject_Z 0 * (1 # 16)) by reflexivity.
    pose proof (@measureLoop_run St source fuel [] 0 0%Z s0 Hs0 ltac:(lia) H0)
      as H.
    rewrite Hrun in H.
    destruct H as (picked & Hds & _ & _ & _ & Hsum & _).
    cbn [app] in Hds. subst picked.
    assert (Hone : sumOf durations == 1) by (rewrite <- Hsum; ring).
    split; [assumption|]. split.
    + pose proof (snap_closed _ Hone) as Hsnap.
      unfold JS.gtb. apply ltb_false.
      assert (E : 1 - sumOf durations == 0) by (rewrite Hone; ring).
      rewrite E. discriminate.
    + unfold generateMeasureDurations, bind. rewrite Hrun.
      unfold ret. rewrite (snap_closed _ Hone). reflexivity.
Qed.

Lemma corrective_branches_unreachable_witness :
  sumOf [1.0] == 1 /\
  JS.gtb (Qabs (1 - sumOf [1.0])) EPS = false /\
  generateMeasureDurations 16 RHYTHM_POOL (MathRandom zeros 0)
  = Done ([1.0], MathRandom zeros 1).
Proof.
  apply (proj2 (@corrective_branches_unreachable PRNG PRNG_rand
                  (MathRandom zeros 0)
                  (@MathRandom_unitSource zeros 0%nat zeros_unit))
               16%nat [1.0] (MathRandom zeros 1)).
  reflexivity.
Defined.

(** C10: an explicitly supplied empty-string seed is treated the same as no
    seed: makePRNG("") returns the non-reproducible fallback source rather
    than the seeded generator, so two runs with seed = "" and identical
    parameters need not produce the same melody. *)
Theorem empty_seed_is_no_seed :
  (forall engine,
      makePRNG engine (Some ""%string) = MathRandom engine 0 /\
      makePRNG engine (Some ""%string) = makePRNG engine None) /\
  (forall engine fuel bars bpm low high,
      generateMelody engine fuel
        {| measures := bars; tempo := bpm; seed := Some ""%string;
           lowMidi := low; highMidi := high |}
      = generateMelody engine fuel
          {| measures := bars; tempo := bpm; seed := None;
             lowMidi := low; highMidi := high |}) /\
  (exists engine1 engine2 fuel params,
      seed params = Some ""%string /\
      (forall n, 0 <= engine1 n < 1) /\ (forall n, 0 <= engine2 n < 1) /\
      generateMelody engine1 fuel params <> generateMelody engine2 fuel params).
Proof.
  split; [|split].
  - intro engine. split; reflexivity.
  - intros engine fuel bars bpm low high.
    unfold generateMelody.
    cbn [seed measures lowMidi highMidi makePRNG String.length Nat.eqb].
    rewrite (barLoop_bounds _
               (Build_Params bars bpm (Some ""%string) low high)
               (Build_Params bars bpm None low high));
      reflexivity.
  - exists zeros, nineTenths, 16%nat, unseeded.
    split; [reflexivity|]. split; [exact zeros_unit|].
    split; [exact nineTenths_unit|].
    vm_compute. discriminate.
Qed.

(* ================================================================== *)
(** * Further properties of the code *)

(** ** Pitch moves *)

Lemma specDelta_in (r1 r2 : Q) :
  In (specDelta r1 r2) [-2; -1; 1; 2; -7; -5; 5; 7]%Z.
Proof.
  unfold specDelta, quarterOf.
  destruct (JS.ltb r1 (8 # 10)), (JS.ltb r2 (1 # 4)), (JS.ltb r2 (2 # 4)),
    (JS.ltb r2 (3 # 4)); simpl; tauto.
Qed.

(** Inside a proper range a move stays in range, spans at most a fifth and
    repeats the pitch only at a bound. *)
Lemma nextPitch_move (low high current : Z) (r1 r2 : Q) :
  (low <= high)%Z -> (low <= current <= high)%Z ->
  (low <= nextPitch low high current r1 r2 <= high)%Z /\
  (Z.abs (nextPitch low high current r1 r2 - current) <= 7)%Z /\
  (nextPitch low high current r1 r2 = current ->
   current = low \/ current = high).
Proof.
  intros Hlh Hcur. unfold nextPitch. cbv zeta.
  rewrite (clamp_nearest _ Hlh). unfold nearestBound.
  pose proof (specDelta_in r1 r2) as Hd. simpl in Hd.
  destruct (current + specDelta r1 r2 <? low)%Z eqn:E1;
    [apply Z.ltb_lt in E1 | apply Z.ltb_ge in E1];
    [|destruct (high <? current + specDelta r1 r2)%Z eqn:E2;
      [apply Z.ltb_lt in E2 | apply Z.ltb_ge in E2]];
    lia.
Qed.

(** With [high <= low] every move ends on [low]. *)
Lemma nextPitch_pinned (low high current : Z) (r1 r2 : Q) :
  (high <= low)%Z -> nextPitch low high current r1 r2 = low.
Proof.
  intro Hhl. unfold nextPitch, clamp. cbv zeta. rewrite Z.gtb_ltb.
  destruct (current + specDelta r1 r2 <? low)%Z eqn:E1;
    [apply Z.ltb_lt in E1 | apply Z.ltb_ge in E1];
    destruct (high <? current + specDelta r1 r2)%Z eqn:E2;
    [apply Z.ltb_lt in E2 | apply Z.ltb_ge in E2 | apply Z.ltb_lt in E2
     | apply Z.ltb_ge in E2]; cbn [orb]; lia.
Qed.

Lemma pitchWalk_app (R : Z -> Z -> Prop) (evs1 evs2 : list Note) :
  forall p q p',
    pitchWalk R p evs1 q -> pitchWalk R q evs2 p' ->
    pitchWalk R p (evs1 ++ evs2) p'.
Proof.
  induction evs1 as [|e rest IH]; intros p q p' H1 H2; cbn in *.
  - subst q. assumption.
  - destruct H1 as [Hstep Hrest]. split; [assumption|].
    eapply IH; eassumption.
Qed.

(** A walk read by position. *)
Lemma pitchWalk_nth (R : Z -> Z -> Prop) (evs : list Note) :
  forall p p', pitchWalk R p evs p' ->
    (forall e, nth_error evs 0 = Some e -> R p (midi e)) /\
    (forall i e e', nth_error evs i = Some e -> nth_error evs (S i) = Some e' ->
                    R (midi e) (midi e')).
Proof.
  induction evs as [|e0 rest IH]; intros p p' H.
  - split; intros; destruct i || idtac; discriminate.
  - destruct H as [Hstep Hrest]. destruct (IH _ _ Hrest) as [Hhead Hnext].
    split.
    + intros e He. injection He as <-. assumption.
    + intros [|i] e e' He He'.
      * injection He as <-. apply Hhead. exact He'.
      * eapply Hnext; eassumption.
Qed.

Lemma pitchWalk_Forall (P : Z -> Prop) (evs : list Note) :
  forall p p', pitchWalk (fun _ q => P q) p evs p' ->
               Forall (fun e => P (midi e)) evs.
Proof.
  induction evs as [|e rest IH]; intros p p' H.
  - constructor.
  - destruct H as [Hstep Hrest]. constructor; [assumption|].
    eapply IH; eassumption.
Qed.

Section DetailFacts.

Context {St : Type} {source : RandomSource St}.

Lemma later_add (n m : nat) (s : St) : later (n + m) s = later m (later n s).
Proof.
  revert s. induction n as [|n IH]; intro s; cbn [later Nat.add].
  - reflexivity.
  - apply IH.
Qed.

Lemma nextMidi_nextPitch (current low high : Z) (s : St) :
  0 <= fst (rand (later 1 s)) < 1 ->
  nextMidi current low high s
  = Done (nextPitch low high current (fst (rand s)) (fst (rand (later 1 s))),
          later 2 s).
Proof. exact (nextMidi_run current low high s). Qed.

Variable params : Params.
Variable Inv : Z -> Prop.
Variable R : Z -> Z -> Prop.

Hypothesis move :
  forall current r1 r2,
    0 <= r2 < 1 -> Inv current ->
    R current (nextPitch (lowMidi params) (highMidi params) current r1 r2) /\
    Inv (nextPitch (lowMidi params) (highMidi params) current r1 r2).

(** The inner loop: two draws and one move per fraction. *)
Lemma noteLoop_detail (fracs : list Q) :
  forall (c : Cursor) (s : St),
    unitSource s -> Inv (currentMidi c) ->
    exists c' seg,
      noteLoop params fracs c s = Done (c', later (2 * List.length fracs) s) /\
      events c' = events c ++ seg /\
      map durationBeats seg = map (fun frac => frac * 4) fracs /\
      pitchWalk R (currentMidi c) seg (currentMidi c') /\
      Inv (currentMidi c').
Proof.
  induction fracs as [|frac rest IH]; intros c s Hs Hinv.
  - exists c, []. cbn [noteLoop]. unfold ret. rewrite app_nil_r.
    repeat (split; [reflexivity || assumption|]). assumption.
  - cbn [noteLoop]. unfold bind at 1.
    rewrite nextMidi_nextPitch by (apply (Hs 1%nat)).
    cbv beta iota.
    set (m := nextPitch _ _ _ _ _).
    destruct (move (fst (rand s)) (Hs 1%nat) Hinv)
      as [Hmove Hinv'].
    fold m in Hmove, Hinv'.
    set (c1 := Build_Cursor _ _ _).
    destruct (IH c1 (later 2 s) (unitSource_later 2 Hs) Hinv')
      as (c' & seg & Hrun & Hev & Hdur & Hwalk & Hinv'').
    set (e := Build_Note m (midiToName m) (tBeats c) (frac * 4)) in *.
    exists c', (e :: seg). rewrite Hrun.
    split.
    { f_equal. f_equal. rewrite <- later_add. f_equal.
      cbn [List.length]. lia. }
    split; [rewrite Hev; subst c1; cbn [events]; rewrite <- app_assoc;
            reflexivity|].
    split; [cbn [map]; rewrite Hdur; reflexivity|].
    split; [|assumption].
    split; [exact Hmove | exact Hwalk].
Qed.

(** The outer loop: per bar a closed list of pool values, and three draws
    per event. *)
Lemma barLoop_detail (fuel : nat) (bars : nat) :
  (16 <= fuel)%nat ->
  forall (c : Cursor) (s : St),
    unitSource s -> Inv (currentMidi c) ->
    exists c' segs,
      barLoop fuel params bars c s
      = Done (c', later (3 * List.length (List.concat segs)) s) /\
      events c' = events c ++ List.concat segs /\
      List.length segs = bars /\
      Forall (fun seg =>
                exists ds,
                  map durationBeats seg = map (fun frac => frac * 4) ds /\
                  Forall (fun v => In v RHYTHM_POOL) ds /\ sumOf ds == 1)
             segs /\
      pitchWalk R (currentMidi c) (List.concat segs) (currentMidi c') /\
      Inv (currentMidi c').
Proof.
  intro Hfuel. induction bars as [|bars IH]; intros c s Hs Hinv.
  - exists c, []. cbn [barLoop List.concat List.length Nat.mul later].
    unfold ret. rewrite app_nil_r.
    repeat (split; [reflexivity || assumption || constructor|]). assumption.
  - cbn [barLoop]. unfold bind at 1.
    destruct (generateMeasureDurations_closes Hs Hfuel)
      as (ds & Hgen & _ & Hs1 & Hpool & Hsum & _).
    rewrite Hgen. unfold bind at 1.
    destruct (noteLoop_detail ds c Hs1 Hinv)
      as (c1 & seg & Hrun & Hev & Hdur & Hwalk & Hinv1).
    rewrite Hrun.
    assert (Hs2 : unitSource (later (2 * List.length ds)
                                (later (List.length ds) s))).
    { apply unitSource_later. assumption. }
    destruct (IH c1 _ Hs2 Hinv1)
      as (c' & segs & Hbars & Hev' & Hlen & Hall & Hwalk' & Hinv').
    exists c', (seg :: segs). cbn [List.concat].
    assert (Hseg : List.length seg = List.length ds).
    { rewrite <- (length_map durationBeats seg), Hdur, length_map.
      reflexivity. }
    split.
    { rewrite Hbars. f_equal. f_equal.
      rewrite <- !later_add. f_equal. rewrite length_app, Hseg. lia. }
    split; [rewrite Hev', Hev, <- app_assoc; reflexivity|].
    split; [cbn [List.length]; congruence|].
    split; [constructor; [exists ds; auto | assumption]|].
    split; [eapply pitchWalk_app; eassumption | assumption].
Qed.

End DetailFacts.

(** A run of [generateMelody] in detail: per measure a closed list of pool
    values, and a walk of pitches from the clamped middle C. *)
Lemma generateMelody_detail (engine : nat -> Q) (fuel : nat) (params : Params)
      (Inv : Z -> Prop) (R : Z -> Z -> Prop) :
  (forall current r1 r2,
      0 <= r2 < 1 -> Inv current ->
      R current (nextPitch (lowMidi params) (highMidi params) current r1 r2) /\
      Inv (nextPitch (lowMidi params) (highMidi params) current r1 r2)) ->
  unitSource (makePRNG engine (seed params)) -> (16 <= fuel)%nat ->
  Inv (clamp 60 (lowMidi params) (highMidi params)) ->
  exists segs p',
    generateMelody engine fuel params = Done (List.concat segs) /\
    List.length segs = Z.to_nat (measures params) /\
    Forall (fun seg =>
              exists ds,
                map durationBeats seg = map (fun frac => frac * 4) ds /\
                Forall (fun v => In v RHYTHM_POOL) ds /\ sumOf ds == 1)
           segs /\
    pitchWalk R (clamp 60 (lowMidi params) (highMidi params))
              (List.concat segs) p'.
Proof.
  intros Hmove Hs Hfuel Hinv. unfold generateMelody.
  set (c0 := Build_Cursor _ _ _).
  destruct (@barLoop_detail _ _ params Inv R Hmove fuel
              (Z.to_nat (measures params)) Hfuel c0 _ Hs Hinv)
    as (c' & segs & Hrun & Hev & Hlen & Hall & Hwalk & _).
  rewrite Hrun. exists segs, (currentMidi c').
  split; [rewrite Hev; reflexivity|]. auto.
Qed.

Lemma in_concat_seg (A : Type) (P : A -> Prop) (Q' : list A -> Prop)
      (segs : list (list A)) :
  (forall seg, Q' seg -> Forall P seg) ->
  Forall Q' segs -> Forall P (List.concat segs).
Proof.
  intros H Hall. induction Hall as [|seg segs Hseg _ IH]; cbn [List.concat].
  - constructor.
  - apply Forall_app. split; [apply H, Hseg | exact IH].
Qed.

(** The beats of a pool value. *)
Lemma pool_value_beats (v : Q) :
  In v RHYTHM_POOL ->
  (v * 4 == 4 \/ v * 4 == 2 \/ v * 4 == 1 \/ v * 4 == 0.5 \/ v * 4 == 0.25) /\
  In (beatsToDurationString (v * 4)) poolTokens.
Proof.
  unfold RHYTHM_POOL, poolTokens. simpl In.
  intros [H|[H|[H|[H|[H|[]]]]]]; subst v; split; vm_compute; tauto.
Qed.

Lemma map_eq_Forall (A B : Type) (f : A -> B) (g : Q -> B) (P : B -> Prop)
      (l : list A) (ds : list Q) :
  map f l = map g ds -> Forall (fun d => P (g d)) ds ->
  Forall (fun a => P (f a)) l.
Proof.
  revert ds. induction l as [|a l IH]; intros [|d ds] Hmap Hall;
    try discriminate; constructor.
  - injection Hmap as Ha _. rewrite Ha. inversion Hall. assumption.
  - injection Hmap as _ Hl. inversion Hall. eapply IH; eassumption.
Qed.

Lemma beatsOf_app (evs1 evs2 : list Note) :
  beatsOf (evs1 ++ evs2) == beatsOf evs1 + beatsOf evs2.
Proof. unfold beatsOf. rewrite map_app. apply sumOf_app. Qed.

Lemma beatsOf_concat (segs : list (list Note)) :
  Forall (fun seg => beatsOf seg == 4) segs ->
  beatsOf (List.concat segs) == 4 * inject_Z (Z.of_nat (List.length segs)).
Proof.
  induction 1 as [|seg segs Hseg _ IH]; cbn [List.concat List.length].
  - reflexivity.
  - rewrite beatsOf_app, Hseg, IH, Nat2Z.inj_succ. unfold Z.succ.
    rewrite inject_Z_plus. change (inject_Z 1) with 1. ring.
Qed.

(** A chain ends where it starts plus the beats of its events. *)
Lemma chain_end (evs : list Note) :
  forall t t', chain t evs t' -> t' == t + beatsOf evs.
Proof.
  induction evs as [|e rest IH]; intros t t' H; cbn in H.
  - unfold beatsOf, sumOf. cbn. rewrite <- H. ring.
  - destruct H as [Hs Hr]. apply IH in Hr.
    unfold beatsOf in *. cbn [map]. rewrite sumOf_cons, Hr, Hs. ring.
Qed.

Lemma chain_last (front : list Note) (e : Note) :
  forall t t', chain t (front ++ [e]) t' ->
               startBeats e + durationBeats e == t'.
Proof.
  induction front as [|e0 rest IH]; intros t t' H; cbn in H.
  - destruct H as [_ H]. exact H.
  - destruct H as [_ H]. eapply IH; eassumption.
Qed.

Lemma to_nat_max (z : Z) : Z.of_nat (Z.to_nat z) = Z.max 0 z.
Proof. lia. Qed.

Lemma concat_length_le (A : Type) (n : nat) (segs : list (list A)) :
  Forall (fun seg => (List.length seg <= n)%nat) segs ->
  (List.length (List.concat segs) <= n * List.length segs)%nat.
Proof.
  induction 1 as [|seg segs Hseg _ IH]; cbn [List.concat List.length].
  - lia.
  - rewrite length_app. lia.
Qed.

(** ** The melody *)

(** X1: in a melody generated for a range low <= high, the first pitch
    lies within 7 semitones of the starting pitch (60 clamped into the
    range) and consecutive pitches differ by at most 7 semitones. *)
Theorem melodic_intervals (engine : nat -> Q) (fuel : nat) (params : Params) :
  (lowMidi params <= highMidi params)%Z ->
  unitSource (makePRNG engine (seed params)) -> (16 <= fuel)%nat ->
  exists melody,
    generateMelody engine fuel params = Done melody /\
    (forall e, nth_error melody 0 = Some e ->
               (Z.abs (midi e - clamp 60 (lowMidi params) (highMidi params))
                <= 7)%Z) /\
    (forall i e e',
        nth_error melody i = Some e -> nth_error melody (S i) = Some e' ->
        (Z.abs (midi e' - midi e) <= 7)%Z).
Proof.
  intros Hlh Hs Hfuel.
  destruct (@generateMelody_detail engine fuel params
              (fun p => (lowMidi params <= p <= highMidi params)%Z)
              (fun p q => (Z.abs (q - p) <= 7)%Z))
    as (segs & p' & Hrun & _ & _ & Hwalk); try assumption.
  - intros current r1 r2 _ Hcur.
    destruct (nextPitch_move r1 r2 Hlh Hcur) as (Hin & Habs & _). auto.
  - unfold clamp. lia.
  - exists (List.concat segs). split; [assumption|].
    exact (pitchWalk_nth _ _ _ _ Hwalk).
Qed.

Lemma melodic_intervals_witness :
  exists melody,
    generateMelody nineTenths 16 unseeded = Done melody /\
    (forall e, nth_error melody 0 = Some e ->
               (Z.abs (midi e - clamp 60 55 76) <= 7)%Z) /\
    (forall i e e',
        nth_error melody i = Some e -> nth_error melody (S i) = Some e' ->
        (Z.abs (midi e' - midi e) <= 7)%Z).
Proof.
  apply (@melodic_intervals nineTenths 16%nat unseeded).
  - simpl. lia.
  - apply MathRandom_unitSource, nineTenths_unit.
  - lia.
Defined.

(** X2: in a melody generated for a range low <= high a pitch is repeated
    only at a bound of the range: when an event has the pitch of its
    predecessor (or the first event the starting pitch), that pitch is low
    or high. *)
Theorem repeated_pitch_at_bound
        (engine : nat -> Q) (fuel : nat) (params : Params) :
  (lowMidi params <= highMidi params)%Z ->
  unitSource (makePRNG engine (seed params)) -> (16 <= fuel)%nat ->
  exists melody,
    generateMelody engine fuel params = Done melody /\
    (forall e, nth_error melody 0 = Some e ->
               midi e = clamp 60 (lowMidi params) (highMidi params) ->
               midi e = lowMidi params \/ midi e = highMidi params) /\
    (forall i e e',
        nth_error melody i = Some e -> nth_error melody (S i) = Some e' ->
        midi e' = midi e ->
        midi e = lowMidi params \/ midi e = highMidi params).
Proof.
  intros Hlh Hs Hfuel.
  destruct (@generateMelody_detail engine fuel params
              (fun p => (lowMidi params <= p <= highMidi params)%Z)
              (fun p q => q = p -> p = lowMidi params \/ p = highMidi params))
    as (segs & p' & Hrun & _ & _ & Hwalk); try assumption.
  - intros current r1 r2 _ Hcur.
    destruct (nextPitch_move r1 r2 Hlh Hcur) as (Hin & _ & Hrep). auto.
  - unfold clamp. lia.
  - exists (List.concat segs). split; [assumption|].
    destruct (pitchWalk_nth _ _ _ _ Hwalk) as [Hhead Hnext]. split.
    + intros e He Heq. rewrite Heq. apply (Hhead e He Heq).
    + intros i e e' He He' Heq. apply (Hnext i e e' He He' Heq).
Qed.

Lemma repeated_pitch_at_bound_witness :
  exists melody,
    generateMelody nineTenths 16 unseeded = Done melody /\
    (forall e, nth_error melody 0 = Some e ->
               midi e = clamp 60 55 76 -> midi e = 55%Z \/ midi e = 76%Z) /\
    (forall i e e',
        nth_error melody i = Some e -> nth_error melody (S i) = Some e' ->
        midi e' = midi e -> midi e = 55%Z \/ midi e = 76%Z).
Proof.
  apply (@repeated_pitch_at_bound nineTenths 16%nat unseeded).
  - simpl. lia.
  - apply MathRandom_unitSource, nineTenths_unit.
  - lia.
Defined.

(** X3: when the range is a single pitch or inverted (high <= low), which
    the code does not reject, every event of the melody has the pitch
    low. *)
Theorem collapsed_range_pins_pitch
        (engine : nat -> Q) (fuel : nat) (params : Params) :
  (highMidi params <= lowMidi params)%Z ->
  unitSource (makePRNG engine (seed params)) -> (16 <= fuel)%nat ->
  exists melody,
    generateMelody engine fuel params = Done melody /\
    Forall (fun e => midi e = lowMidi params) melody.
Proof.
  intros Hhl Hs Hfuel.
  destruct (@generateMelody_detail engine fuel params
              (fun _ => True) (fun _ q => q = lowMidi params))
    as (segs & p' & Hrun & _ & _ & Hwalk); try assumption.
  - intros current r1 r2 _ _. split; [|exact I].
    apply nextPitch_pinned, Hhl.
  - exact I.
  - exists (List.concat segs). split; [assumption|].
    exact (pitchWalk_Forall (fun q => q = lowMidi params) _ _ _ Hwalk).
Qed.

Lemma collapsed_range_pins_pitch_witness :
  exists melody,
    generateMelody nineTenths 16
      {| measures := 2; tempo := 100; seed := None;
         lowMidi := 70; highMidi := 64 |} = Done melody /\
    Forall (fun e => midi e = 70%Z) melody.
Proof.
  apply (@collapsed_range_pins_pitch nineTenths 16%nat
           {| measures := 2; tempo := 100; seed := None;
              lowMidi := 70; highMidi := 64 |}).
  - simpl. lia.
  - apply MathRandom_unitSource, nineTenths_unit.
  - lia.
Defined.

(** X4: every event of a generated melody lasts 4, 2, 1, 0.5 or 0.25 beats
    (a whole, half, quarter, eighth or sixteenth note), and
    beatsToDurationString renders its duration as "1", "2", "4", "8" or, for
    the sixteenth, as the tick token "T32". *)
Theorem note_values (engine : nat -> Q) (fuel : nat) (params : Params) :
  unitSource (makePRNG engine (seed params)) -> (16 <= fuel)%nat ->
  exists melody,
    generateMelody engine fuel params = Done melody /\
    Forall (fun e =>
              (durationBeats e == 4 \/ durationBeats e == 2 \/
               durationBeats e == 1 \/ durationBeats e == 0.5 \/
               durationBeats e == 0.25) /\
              In (beatsToDurationString (durationBeats e)) poolTokens)
           melody.
Proof.
  intros Hs Hfuel.
  destruct (@generateMelody_detail engine fuel params
              (fun _ => True) (fun _ _ => True))
    as (segs & p' & Hrun & _ & Hall & _); try assumption; auto.
  exists (List.concat segs). split; [assumption|].
  eapply in_concat_seg; [|exact Hall].
  intros seg (ds & Hdur & Hpool & _).
  apply (map_eq_Forall durationBeats (fun frac => frac * 4)
           (fun b => (b == 4 \/ b == 2 \/ b == 1 \/ b == 0.5 \/ b == 0.25) /\
                     In (beatsToDurationString b) poolTokens)
           seg Hdur).
  eapply Forall_impl; [|exact Hpool].
  intros v Hv. apply pool_value_beats, Hv.
Qed.

Lemma note_values_witness :
  exists melody,
    generateMelody zeros 16 scenarioA = Done melody /\
    Forall (fun e =>
              (durationBeats e == 4 \/ durationBeats e == 2 \/
               durationBeats e == 1 \/ durationBeats e == 0.5 \/
               durationBeats e == 0.25) /\
              In (beatsToDurationString (durationBeats e)) poolTokens)
           melody.
Proof.
  apply (@note_values zeros 16%nat scenarioA).
  - apply Mulberry32_unitSource.
  - lia.
Defined.

(** X5: a generated melody lasts exactly 4 beats per requested measure (no
    beats when measures <= 0): its durations add up to 4 * max(0, measures)
    and its last event ends at that time. *)
Theorem piece_length (engine : nat -> Q) (fuel : nat) (params : Params) :
  unitSource (makePRNG engine (seed params)) -> (16 <= fuel)%nat ->
  exists melody,
    generateMelody engine fuel params = Done melody /\
    beatsOf melody == 4 * inject_Z (Z.max 0 (measures params)) /\
    (forall front e,
        melody = front ++ [e] ->
        startBeats e + durationBeats e
        == 4 * inject_Z (Z.max 0 (measures params))).
Proof.
  intros Hs Hfuel.
  destruct (generateMelody_run engine params Hs Hfuel)
    as (segs & t' & Hrun & Hlen & Hall & Hchain & _).
  assert (Hbeats : beatsOf (List.concat segs)
                   == 4 * inject_Z (Z.max 0 (measures params))).
  { rewrite beatsOf_concat.
    - rewrite Hlen, to_nat_max. reflexivity.
    - eapply Forall_impl; [|exact Hall]. intros seg [_ H]. exact H. }
  exists (List.concat segs). split; [assumption|]. split; [assumption|].
  intros front e Hsplit. rewrite Hsplit in Hchain.
  rewrite (chain_last _ _ _ _ Hchain).
  rewrite <- Hsplit in Hchain. rewrite (chain_end _ _ _ Hchain), Hbeats.
  ring.
Qed.

Lemma piece_length_witness :
  exists melody,
    generateMelody zeros 16 scenarioA = Done melody /\
    beatsOf melody == 4 * inject_Z (Z.max 0 (measures scenarioA)) /\
    (forall front e,
        melody = front ++ [e] ->
        startBeats e + durationBeats e
        == 4 * inject_Z (Z.max 0 (measures scenarioA))).
Proof.
  apply (@piece_length zeros 16%nat scenarioA).
  - apply Mulberry32_unitSource.
  - lia.
Defined.

(** X6: a generated melody holds at most 16 events per requested
    measure. *)
Theorem event_count_upper_bound
        (engine : nat -> Q) (fuel : nat) (params : Params) :
  unitSource (makePRNG engine (seed params)) -> (16 <= fuel)%nat ->
  exists melody,
    generateMelody engine fuel params = Done melody /\
    (Z.of_nat (List.length melody) <= 16 * Z.max 0 (measures params))%Z.
Proof.
  intros Hs Hfuel.
  destruct (@generateMelody_detail engine fuel params
              (fun _ => True) (fun _ _ => True))
    as (segs & p' & Hrun & Hlen & Hall & _); try assumption; auto.
  exists (List.concat segs). split; [assumption|].
  assert (Hsegs : Forall (fun seg : list Note => (List.length seg <= 16)%nat)
                         segs).
  { eapply Forall_impl; [|exact Hall].
    intros seg (ds & Hdur & Hpool & Hsum).
    rewrite <- (length_map durationBeats seg), Hdur, length_map.
    apply closed_measure_length; assumption. }
  apply concat_length_le in Hsegs. rewrite Hlen in Hsegs. lia.
Qed.

Lemma event_count_upper_bound_witness :
  exists melody,
    generateMelody nineTenths 16 unseeded = Done melody /\
    (Z.of_nat (List.length melody) <= 16 * Z.max 0 (measures unseeded))%Z.
Proof.
  apply (@event_count_upper_bound nineTenths 16%nat unseeded).
  - apply MathRandom_unitSource, nineTenths_unit.
  - lia.
Defined.

(** X7: the loop over the measures of generateMelody calls the random
    source exactly three times per event it appends: once in
    generateMeasureDurations and twice in nextMidi. *)
Theorem three_draws_per_event
        (St : Type) (source : RandomSource St)
        (fuel : nat) (params : Params) (bars : nat) (c : Cursor) (s : St) :
  unitSource s -> (16 <= fuel)%nat ->
  exists c',
    barLoop fuel params bars c s
    = Done (c', later (3 * (List.length (events c') - List.length (events c)))
                      s).
Proof.
  intros Hs Hfuel.
  destruct (@barLoop_detail St source params (fun _ => True) (fun _ _ => True)
              ltac:(auto) fuel bars Hfuel c s Hs I)
    as (c' & segs & Hrun & Hev & _).
  exists c'. rewrite Hrun, Hev, length_app. do 3 f_equal. lia.
Qed.

Lemma three_draws_per_event_witness :
  exists c',
    barLoop 16 unseeded 1 {| events := []; tBeats := 0; currentMidi := 60 |}
            (MathRandom nineTenths 0)
    = Done (c', later (3 * (List.length (events c') - 0))
                      (MathRandom nineTenths 0)).
Proof.
  apply (@three_draws_per_event PRNG PRNG_rand 16%nat unseeded 1%nat
           {| events := []; tBeats := 0; currentMidi := 60 |}
           (MathRandom nineTenths 0)).
  - apply MathRandom_unitSource, nineTenths_unit.
  - lia.
Defined.

Lemma note_values_positive
      (engine : nat -> Q) (fuel : nat) (params : Params) :
  unitSource (makePRNG engine (seed params)) -> (16 <= fuel)%nat ->
  exists melody t',
    generateMelody engine fuel params = Done melody /\
    chain 0 melody t' /\
    Forall (fun e => 0 < durationBeats e) melody.
Proof.
  intros Hs Hfuel.
  destruct (generateMelody_run engine params Hs Hfuel)
    as (segs & t' & Hrun & _ & _ & Hchain & _).
  destruct (@generateMelody_detail engine fuel params
              (fun _ => True) (fun _ _ => True))
    as (segs' & p' & Hrun' & _ & Hall & _); try assumption; auto.
  rewrite Hrun in Hrun'. injection Hrun' as Hsame.
  exists (List.concat segs), t'. split; [assumption|]. split; [assumption|].
  rewrite Hsame. eapply in_concat_seg; [|exact Hall].
  intros seg (ds & Hdur & Hpool & _).
  apply (map_eq_Forall durationBeats (fun frac => frac * 4)
           (fun b => 0 < b) seg Hdur).
  eapply Forall_impl; [|exact Hpool].
  intros v Hv. apply pool_at_least_sixteenth in Hv. lra.
Qed.

Lemma chain_starts (evs : list Note) :
  forall t t',
    chain t evs t' -> Forall (fun e => 0 < durationBeats e) evs -> 0 <= t ->
    Forall (fun e => 0 <= startBeats e) evs.
Proof.
  induction evs as [|e rest IH]; intros t t' Hchain Hpos Ht.
  - constructor.
  - destruct Hchain as [Hs Hr]. inversion Hpos as [|? ? Hd Hrest]; subst.
    constructor; [rewrite Hs; assumption|].
    apply (IH _ _ Hr Hrest). rewrite Hs. lra.
Qed.

(** X8: start times of a generated melody are strictly increasing: every
    event starts later than its predecessor, the first at 0. *)
Theorem start_times_increase
        (engine : nat -> Q) (fuel : nat) (params : Params) :
  unitSource (makePRNG engine (seed params)) -> (16 <= fuel)%nat ->
  exists melody,
    generateMelody engine fuel params = Done melody /\
    (forall i e e',
        nth_error melody i = Some e -> nth_error melody (S i) = Some e' ->
        startBeats e < startBeats e') /\
    Forall (fun e => 0 <= startBeats e) melody.
Proof.
  intros Hs Hfuel.
  destruct (note_values_positive engine params Hs Hfuel)
    as (melody & t' & Hrun & Hchain & Hpos).
  exists melody. split; [assumption|].
  destruct (chain_nth _ _ _ Hchain) as [_ Hnext]. split.
  - intros i e e' He He'. rewrite (Hnext i e e' He He').
    pose proof (proj1 (Forall_forall _ _) Hpos e (nth_error_In _ _ He)) as Hd.
    cbv beta in Hd. lra.
  - apply (chain_starts _ Hchain Hpos). apply Qle_refl.
Qed.

Lemma start_times_increase_witness :
  exists melody,
    generateMelody nineTenths 16 unseeded = Done melody /\
    (forall i e e',
        nth_error melody i = Some e -> nth_error melody (S i) = Some e' ->
        startBeats e < startBeats e') /\
    Forall (fun e => 0 <= startBeats e) melody.
Proof.
  apply (@start_times_increase nineTenths 16%nat unseeded).
  - apply MathRandom_unitSource, nineTenths_unit.
  - lia.
Defined.

(** ** The rhythm partitioner on any pool *)




Section AnyPool.

Context {St : Type} {source : RandomSource St}.

Variable pool : list Q.

Lemma loopBranch_leave (used : Q) (s : St) :
  loopBranch pool used s = Leave -> 1 - EPS <= used.
Proof.
  unfold loopBranch. destruct (JS.ltb used (1 - EPS)) eqn:E.
  - destruct (List.length _ =? 0)%nat; [discriminate|].
    destruct (rand s). discriminate.
  - intros _. apply ltb_false. exact E.
Qed.

(** With draws in [0, 1) the index into the candidates is in bounds. *)
Lemma loopBranch_defined (used : Q) (s s' : St) :
  unitSource s -> loopBranch pool used s <> Pick None s'.
Proof.
  intros Hs. unfold loopBranch.
  destruct (JS.ltb used (1 - EPS)); [|discriminate].
  set (candidates := filter _ pool).
  destruct (List.length candidates =? 0)%nat eqn:El; [discriminate|].
  assert (Hne : candidates <> []).
  { intro E. rewrite E in El. discriminate. }
  pose proof (unitSource_now Hs) as Hr.
  destruct (rand s) as [r s1]. cbn [fst] in Hr.
  destruct (floor_index_defined Hr Hne) as (val & Hval & _).
  rewrite Hval. discriminate.
Qed.


Lemma measureLoop_in_bounds (fuel : nat) :
  forall (durations : list Q) (used : Q) (s : St),
    unitSource s ->
    (exists ds s', measureLoop fuel pool durations used s = Done (ds, s')) \/
    measureLoop fuel pool durations used s = OutOfFuel.
Proof.
  induction fuel as [|fuel IH]; intros durations used s Hs;
    cbn [measureLoop];
    pose proof (@loopBranch_defined used s) as Hdef;
    destruct (loopBranch pool used s) as [|remaining|[val|] s1] eqn:Hstep;
    try (left; eexists _, _; reflexivity);
    try (exfalso; apply (Hdef s1 Hs); reflexivity).
  - right. reflexivity.
  - apply IH. destruct (loopBranch_pick _ _ _ Hstep) as (_ & _ & _ & ->).
    apply unitSource_next, Hs.
Qed.

End AnyPool.



(** X10: whatever the pool, with draws in [0,1) generateMeasureDurations
    never indexes outside its candidates: it returns a list, or its loop
    is still running when the fuel is spent. *)
Theorem partition_reads_in_bounds
        (St : Type) (source : RandomSource St)
        (fuel : nat) (pool : list Q) (s : St) :
  unitSource s ->
  (exists ds s', generateMeasureDurations fuel pool s = Done (ds, s')) \/
  generateMeasureDurations fuel pool s = OutOfFuel.
Proof.
  intro Hs. unfold generateMeasureDurations, bind, ret.
  destruct (measureLoop_in_bounds pool fuel [] 0 Hs)
    as [(ds & s' & Hrun)|Hrun]; rewrite Hrun.
  - left. eexists _, _. reflexivity.
  - right. reflexivity.
Qed.

Lemma partition_reads_in_bounds_witness :
  (exists ds s',
      generateMeasureDurations 3 [0.3] (MathRandom nineTenths 0)
      = Done (ds, s')) \/
  generateMeasureDurations 3 [0.3] (MathRandom nineTenths 0) = OutOfFuel.
Proof.
  apply (@partition_reads_in_bounds PRNG PRNG_rand 3%nat [0.3]
           (MathRandom nineTenths 0)).
  apply MathRandom_unitSource, nineTenths_unit.
Defined.

Section PoolShapes.

Context {St : Type} {source : RandomSource St}.

Variable pool : list Q.

(** The safety net is taken when no pool value is a candidate. *)
Lemma loopBranch_net (used remaining : Q) (s : St) :
  loopBranch pool used s = SafetyNet remaining ->
  filter (fun v => Qle_bool v (1 - used + EPS)) pool = [].
Proof.
  unfold loopBranch.
  destruct (JS.ltb used (1 - EPS)); [|intro H; discriminate H].
  destruct (List.length _ =? 0)%nat eqn:El.
  - intros _. apply Nat.eqb_eq, length_zero_iff_nil in El. exact El.
  - destruct (rand s). intro H. discriminate H.
Qed.

(** While [used] is not positive a pool without positive values offers
    all its values, and the value picked leaves [used] not positive. *)
Lemma measureLoop_spins (fuel : nat) :
  pool <> [] -> Forall (fun v => v <= 0) pool ->
  forall (durations : list Q) (used : Q) (s : St),
    unitSource s -> used <= 0 ->
    measureLoop fuel pool durations used s = OutOfFuel.
Proof.
  intros Hne Hall.
  induction fuel as [|fuel IH]; intros durations used s Hs Hused;
    cbn [measureLoop];
    pose proof (@loopBranch_defined St source pool used s) as Hdef;
    pose proof EPS_value as HE;
    destruct (loopBranch pool used s) as [|remaining|[val|] s1] eqn:Hstep;
    try reflexivity;
    try (exfalso; apply (Hdef s1 Hs); reflexivity);
    try (apply loopBranch_leave in Hstep; lra).
  - exfalso. apply loopBranch_net in Hstep.
    destruct pool as [|v rest]; [congruence|].
    inversion Hall as [|? ? Hv _]; subst.
    cbn [filter] in Hstep.
    assert (Hfit : Qle_bool v (1 - used + EPS) = true)
      by (apply Qle_bool_iff; lra).
    rewrite Hfit in Hstep. discriminate.
  - exfalso. apply loopBranch_net in Hstep.
    destruct pool as [|v rest]; [congruence|].
    inversion Hall as [|? ? Hv _]; subst.
    cbn [filter] in Hstep.
    assert (Hfit : Qle_bool v (1 - used + EPS) = true)
      by (apply Qle_bool_iff; lra).
    rewrite Hfit in Hstep. discriminate.
  - destruct (loopBranch_pick _ _ _ Hstep) as (Hin & _ & _ & ->).
    apply IH; [apply unitSource_next, Hs|].
    pose proof (proj1 (Forall_forall _ _) Hall val Hin) as Hv.
    cbv beta in Hv. lra.
Qed.


End PoolShapes.

(** X11: a non-empty pool without a positive value keeps the loop of
    generateMeasureDurations running for ever: whatever the fuel, it is
    spent before the loop ends. *)
Theorem nonpositive_pool_never_returns
        (St : Type) (source : RandomSource St)
        (fuel : nat) (pool : list Q) (s : St) :
  pool <> [] -> Forall (fun v => v <= 0) pool -> unitSource s ->
  generateMeasureDurations fuel pool s = OutOfFuel.
Proof.
  intros Hne Hall Hs. unfold generateMeasureDurations, bind.
  rewrite (measureLoop_spins fuel Hne Hall [] Hs); [reflexivity|].
  apply Qle_refl.
Qed.

Lemma nonpositive_pool_never_returns_witness :
  generateMeasureDurations 1000 [0; -0.5] (Mulberry32 0) = OutOfFuel.
Proof.
  apply (@nonpositive_pool_never_returns PRNG PRNG_rand 1000%nat [0; -0.5]
           (Mulberry32 0)).
  - discriminate.
  - repeat constructor; discriminate.
  - apply Mulberry32_unitSource.
Defined.

(** X12: when no pool value fits a whole measure (every value exceeds
    1 + 1e-6, or the pool is empty), generateMeasureDurations returns the
    single duration 1 through its safety net, without a draw. *)
Theorem oversized_pool_single_note
        (St : Type) (source : RandomSource St)
        (fuel : nat) (pool : list Q) (s : St) :
  Forall (fun v => 1 + EPS < v) pool ->
  exists d, generateMeasureDurations fuel pool s = Done ([d], s) /\ d == 1.
Proof.
  intro Hall.
  assert (Hnone : filter (fun v => Qle_bool v (1 - 0 + EPS)) pool = []).
  { induction Hall as [|v rest Hv _ IH]; [reflexivity|].
    cbn [filter].
    assert (Hfit : Qle_bool v (1 - 0 + EPS) = false).
    { destruct (Qle_bool v (1 - 0 + EPS)) eqn:E; [|reflexivity].
      apply Qle_bool_iff in E. lra. }
    rewrite Hfit. exact IH. }
  assert (Hstep : loopBranch pool 0 s = SafetyNet (1 - 0)).
  { unfold loopBranch. cbv zeta. rewrite Hnone. reflexivity. }
  exists (1 - 0). split; [|reflexivity].
  unfold generateMeasureDurations, bind, ret.
  destruct fuel; cbn [measureLoop]; rewrite Hstep; reflexivity.
Qed.

Lemma oversized_pool_single_note_witness :
  exists d,
    generateMeasureDurations 16 [4; 2] (Mulberry32 0)
    = Done ([d], Mulberry32 0) /\ d == 1.
Proof.
  apply (@oversized_pool_single_note PRNG PRNG_rand 16%nat [4; 2]
           (Mulberry32 0)).
  repeat constructor.
Defined.



(** ** The track *)

Lemma writeMidiLoop_echo (events : list Note) :
  forall (t t' lastStart : Q) (token : string),
    chain t events t' ->
    beatsToDurationString (t - lastStart) = token ->
    writeMidiLoop events lastStart = map addEvent (echoedNotes token events).
Proof.
  induction events as [|e rest IH]; intros t t' lastStart token Hchain Htoken.
  - reflexivity.
  - destruct Hchain as [Hstart Hrest]. cbn [writeMidiLoop echoedNotes map].
    cbv zeta. f_equal.
    + f_equal. f_equal. rewrite <- Htoken.
      apply beatsToDurationString_compat. rewrite Hstart. reflexivity.
    + apply (IH _ _ _ _ Hrest).
      apply beatsToDurationString_compat. ring.
Qed.

(** X14: for a generated melody writeMidi sets the tempo, names the track
    and adds one note event per melody event, in order: its pitch is the
    event's name, its duration the event's duration token, and its wait
    repeats the duration token of the event before ("T0" for the first),
    the difference of successive start times being the previous
    duration. *)
Theorem writeMidi_waits_echo_durations
        (engine : nat -> Q) (fuel : nat) (params : Params) :
  unitSource (makePRNG engine (seed params)) -> (16 <= fuel)%nat ->
  exists melody,
    generateMelody engine fuel params = Done melody /\
    writeMidi melody (tempo params)
    = setTempo (tempo params)
        :: addTrackName "Random Melody (no key)"
        :: map addEvent (echoedNotes "T0" melody).
Proof.
  intros Hs Hfuel.
  destruct (generateMelody_run engine params Hs Hfuel)
    as (segs & t' & Hrun & _ & _ & Hchain & _).
  exists (List.concat segs). split; [assumption|].
  unfold writeMidi. cbv zeta. do 2 f_equal.
  eapply writeMidiLoop_echo; [exact Hchain | reflexivity].
Qed.

Lemma writeMidi_waits_echo_durations_witness :
  exists melody,
    generateMelody nineTenths 16 unseeded = Done melody /\
    writeMidi melody (tempo unseeded)
    = setTempo (tempo unseeded)
        :: addTrackName "Random Melody (no key)"
        :: map addEvent (echoedNotes "T0" melody).
Proof.
  apply (@writeMidi_waits_echo_durations nineTenths 16%nat unseeded).
  - apply MathRandom_unitSource, nineTenths_unit.
  - lia.
Defined.

(** ** The seeded source *)

Lemma later_Mulberry32 (n : nat) :
  forall a, exists a', later n (Mulberry32 a) = Mulberry32 a'.
Proof.
  induction n as [|n IH]; intro a; cbn [later].
  - exists a. reflexivity.
  - rewrite rand_Mulberry32. cbn [snd]. apply IH.
Qed.

(** X15: with a non-empty seed every draw of the source that makePRNG
    returns is a multiple of 2^-32 in [0,1): k / 4294967296 for an integer
    0 <= k < 2^32. *)
Theorem seeded_draws_are_fractions
        (engine : nat -> Q) (str : string) (n : nat) :
  str <> ""%string ->
  exists k,
    (0 <= k < 4294967296)%Z /\
    fst (rand (later n (makePRNG engine (Some str))))
    = inject_Z k / 4294967296.
Proof.
  intro Hne.
  assert (Hseeded : exists a, makePRNG engine (Some str) = Mulberry32 a).
  { unfold makePRNG. destruct str as [|c rest]; [congruence|].
    eexists. reflexivity. }
  destruct Hseeded as (a & ->).
  destruct (later_Mulberry32 n a) as (a' & ->).
  rewrite rand_Mulberry32. cbn [fst]. unfold mulberry32. cbv zeta. cbn [fst].
  eexists. split; [|reflexivity].
  unfold JS.toUint32. apply Z.mod_pos_bound. reflexivity.
Qed.

Lemma seeded_draws_are_fractions_witness :
  exists k,
    (0 <= k < 4294967296)%Z /\
    fst (rand (later 5 (makePRNG zeros (Some "hello"%string))))
    = inject_Z k / 4294967296.
Proof.
  apply (@seeded_draws_are_fractions zeros "hello"%string 5%nat).
  discriminate.
Defined.

(** ** Names and tokens *)

Lemma String_of_int_injective (n m : Z) :
  JS.String_of_int n = JS.String_of_int m -> n = m.
Proof.
  unfold JS.String_of_int. intro H.
  assert (Hok : forall z, Z.to_int z <> Decimal.Pos Decimal.Nil /\
                          Z.to_int z <> Decimal.Neg Decimal.Nil).
  { intros [|p|p]; cbn [Z.to_int]; split; try discriminate;
      intro E; injection E as E; exact (Unsigned.to_uint_nonnil p E). }
  pose proof (NilZero.isi (Z.to_int n) (proj1 (Hok n)) (proj2 (Hok n))) as Hn.
  pose proof (NilZero.isi (Z.to_int m) (proj1 (Hok m)) (proj2 (Hok m))) as Hm.
  rewrite H, Hm in Hn. injection Hn as Hn.
  rewrite <- (DecimalZ.of_to n), <- (DecimalZ.of_to m), Hn. reflexivity.
Qed.

(** The decimal form of an integer starts with a digit or a minus sign. *)
Lemma String_of_int_head (n : Z) :
  exists c rest,
    JS.String_of_int n = String c rest /\ c <> "#"%char /\ c <> "T"%char.
Proof.
  assert (Huint : forall d, exists c rest,
               NilZero.string_of_uint d = String c rest /\
               c <> "#"%char /\ c <> "T"%char).
  { intros [|d|d|d|d|d|d|d|d|d|d]; cbn; eexists _, _;
      (split; [reflexivity | split; discriminate]). }
  unfold JS.String_of_int. destruct (Z.to_int n) as [d|d]; cbn.
  - apply Huint.
  - eexists _, _. split; [reflexivity | split; discriminate].
Qed.

(** X16: midiToName is injective on the pitches from 0 up: two different
    MIDI numbers never get the same name. *)
Theorem midiToName_injective (m1 m2 : Z) :
  (0 <= m1)%Z -> (0 <= m2)%Z -> midiToName m1 = midiToName m2 -> m1 = m2.
Proof.
  intros H1 H2. unfold midiToName. cbv zeta.
  pose proof (Z.rem_bound_pos m1 12 H1 ltac:(lia)) as Hp1.
  pose proof (Z.rem_bound_pos m2 12 H2 ltac:(lia)) as Hp2.
  pose proof (Z.rem_mod_nonneg m1 12 H1 ltac:(lia)) as Hr1.
  pose proof (Z.rem_mod_nonneg m2 12 H2 ltac:(lia)) as Hr2.
  pose proof (Z.div_mod m1 12 ltac:(lia)) as Hd1.
  pose proof (Z.div_mod m2 12 ltac:(lia)) as Hd2.
  destruct (String_of_int_head (m1 / 12 - 1)) as (c1 & r1 & Ho1 & Hc1 & _).
  destruct (String_of_int_head (m2 / 12 - 1)) as (c2 & r2 & Ho2 & Hc2 & _).
  intro Hname.
  assert (Hsame : Z.rem m1 12 = Z.rem m2 12 /\
                  JS.String_of_int (m1 / 12 - 1)
                  = JS.String_of_int (m2 / 12 - 1)).
  { rewrite Ho1, Ho2 in *. clear Ho1 Ho2 Hr1 Hr2 Hd1 Hd2.
    set (p1 := Z.rem m1 12) in *. set (p2 := Z.rem m2 12) in *.
    assert (E1 : (p1 = 0 \/ p1 = 1 \/ p1 = 2 \/ p1 = 3 \/ p1 = 4 \/ p1 = 5 \/
                  p1 = 6 \/ p1 = 7 \/ p1 = 8 \/ p1 = 9 \/ p1 = 10 \/
                  p1 = 11)%Z) by lia.
    assert (E2 : (p2 = 0 \/ p2 = 1 \/ p2 = 2 \/ p2 = 3 \/ p2 = 4 \/ p2 = 5 \/
                  p2 = 6 \/ p2 = 7 \/ p2 = 8 \/ p2 = 9 \/ p2 = 10 \/
                  p2 = 11)%Z) by lia.
    clearbody p1 p2.
    repeat (destruct E1 as [E1|E1]); repeat (destruct E2 as [E2|E2]);
      subst p1 p2; cbn in Hname;
      try discriminate Hname;
      try (injection Hname as -> ->; split; reflexivity);
      try (injection Hname as Hc _; congruence). }
  destruct Hsame as [Hpc Hoct]. apply String_of_int_injective in Hoct.
  rewrite Hr1, Hr2 in Hpc. lia.
Qed.

Lemma midiToName_injective_witness :
  midiToName 60 = midiToName (5 * 12) /\ 60%Z = (5 * 12)%Z.
Proof.
  split; [reflexivity|].
  apply (@midiToName_injective 60 (5 * 12)); [lia | lia | reflexivity].
Defined.

(** X17: a negative pitch that is not a multiple of 12 has no entry in the
    note table: its name is the text "undefined" followed by the octave
    number. *)
Theorem midiToName_negative (m : Z) :
  (m < 0)%Z -> (m mod 12 <> 0)%Z ->
  midiToName m = ("undefined" ++ JS.String_of_int (m / 12 - 1))%string.
Proof.
  intros Hneg Hmod. unfold midiToName. cbv zeta.
  assert (Hrem : (Z.rem m 12 < 0)%Z).
  { pose proof (Z.rem_bound_pos_neg m 12 ltac:(lia) ltac:(lia)) as Hb.
    assert (Hnz : Z.rem m 12 <> 0%Z).
    { intro E. apply Z.rem_divide in E; [|lia]. apply Hmod.
      apply Z.mod_divide; [lia | assumption]. }
    lia. }
  unfold JS.index.
  rewrite (proj2 (Z.ltb_lt _ _) Hrem). reflexivity.
Qed.

Lemma midiToName_negative_witness :
  midiToName (-1) = ("undefined" ++ JS.String_of_int (-1 / 12 - 1))%string.
Proof.
  apply (@midiToName_negative (-1)); [lia | discriminate].
Defined.






(** ** The command line *)

Lemma lookup_absent (entries : list (string * string)) (key : string) :
  Forall (fun e => fst e <> key) entries -> CLI.lookup entries key = None.
Proof.
  induction 1 as [|[k v] rest Hk _ IH]; cbn [CLI.lookup].
  - reflexivity.
  - rewrite IH. cbn [fst] in Hk.
    destruct (String.eqb_spec k key); [contradiction | reflexivity].
Qed.

(** The last entry decides. *)
Lemma lookup_last (entries : list (string * string)) (key value : string) :
  CLI.lookup (entries ++ [(key, value)]) key = Some value.
Proof.
  induction entries as [|[k v] rest IH]; cbn [CLI.lookup app].
  - rewrite String.eqb_refl. reflexivity.
  - rewrite IH. reflexivity.
Qed.

Lemma lookup_last_other (entries : list (string * string))
      (key other value : string) :
  other <> key ->
  CLI.lookup (entries ++ [(other, value)]) key = CLI.lookup entries key.
Proof.
  intro Hne. induction entries as [|[k v] rest IH]; cbn [CLI.lookup app].
  - destruct (String.eqb_spec other key); [contradiction | reflexivity].
  - rewrite IH. reflexivity.
Qed.

Lemma skipn_app_last (A : Type) (n : nat) (l : list A) (x : A) :
  (n <= List.length l)%nat -> skipn n (l ++ [x]) = skipn n l ++ [x].
Proof.
  revert l. induction n as [|n IH]; intros l Hlen.
  - reflexivity.
  - destruct l as [|a l]; cbn [List.length] in Hlen; [lia|].
    cbn [skipn app]. apply IH. lia.
Qed.

Lemma split_plain (v : string) : hasEquals v = false -> CLI.split v = [v].
Proof.
  induction v as [|c rest IH]; cbn [hasEquals CLI.split]; intro H.
  - reflexivity.
  - apply orb_false_iff in H. destruct H as [Hc Hrest].
    rewrite Hc, (IH Hrest). reflexivity.
Qed.

Lemma split_pair (key value : string) :
  hasEquals key = false ->
  CLI.split (key ++ "=" ++ value) = key :: CLI.split value.
Proof.
  induction key as [|c rest IH]; cbn [hasEquals]; intro H.
  - reflexivity.
  - apply orb_false_iff in H. destruct H as [Hc Hrest].
    change ((String c rest ++ "=" ++ value)%string)
      with (String c (rest ++ "=" ++ value)%string).
    cbn [CLI.split]. rewrite Hc, (IH Hrest). reflexivity.
Qed.

(** [--key=value] is read as the pair of [key] and [value] when neither
    holds an equals sign. *)
Lemma entry_pair (key value : string) :
  hasEquals key = false -> hasEquals value = false ->
  CLI.entry ("--" ++ key ++ "=" ++ value) = (key, value).
Proof.
  intros Hk Hv. unfold CLI.entry.
  change (CLI.stripDashes ("--" ++ key ++ "=" ++ value))
    with ((key ++ "=" ++ value)%string).
  rewrite split_pair by assumption. rewrite split_plain by assumption.
  reflexivity.
Qed.

Lemma lookup_given (argv : list string) (key value : string) :
  (2 <= List.length argv)%nat ->
  hasEquals key = false -> hasEquals value = false ->
  CLI.lookup (map CLI.entry (skipn 2 (argv ++ [("--" ++ key ++ "=" ++ value)%string])))
             key
  = Some value.
Proof.
  intros Hlen Hk Hv.
  rewrite skipn_app_last by assumption. rewrite map_app. cbn [map].
  rewrite entry_pair by assumption. apply lookup_last.
Qed.

(** *** [parseInt] reads back what [String] writes *)









Lemma split_two (v : string) :
  hasEquals v = true -> exists a b rest, CLI.split v = a :: b :: rest.
Proof.
  induction v as [|c v IH]; cbn [hasEquals CLI.split]; intro H.
  - discriminate.
  - destruct (c =? "=")%char.
    + destruct v as [|c' v']; cbn [CLI.split].
      * eexists _, _, _. reflexivity.
      * destruct (c' =? "=")%char; [eexists _, _, _; reflexivity|].
        destruct (CLI.split v') as [|part parts];
          eexists _, _, _; reflexivity.
    + cbn [orb] in H. destruct (IH H) as (a & b & rest & ->).
      eexists _, _, _. reflexivity.
Qed.

(** An argument whose key is no option name changes nothing. *)
Lemma parseArgs_ignores (argv : list string) (arg : string) :
  (2 <= List.length argv)%nat ->
  ~ In (fst (CLI.entry arg)) optionNames ->
  CLI.parseArgs (argv ++ [arg]) = CLI.parseArgs argv.
Proof.
  intros Hlen Hkey. unfold CLI.parseArgs. cbv zeta.
  rewrite skipn_app_last by assumption. rewrite map_app. cbn [map].
  destruct (CLI.entry arg) as [key value]. cbn [fst] in Hkey.
  unfold optionNames in Hkey. cbn [In] in Hkey.
  rewrite !lookup_last_other by (intro E; apply Hkey; rewrite E; tauto).
  reflexivity.
Qed.

(** X19: when no argument after the first two names an option, parseArgs
    returns the defaults: 4 measures, tempo 100, no seed, range 55 to
    76. *)
Theorem parseArgs_defaults (argv : list string) :
  Forall (fun arg => ~ In (fst (CLI.entry arg)) optionNames) (skipn 2 argv) ->
  CLI.parseArgs argv = defaultParams.
Proof.
  intro Hall. unfold CLI.parseArgs. cbv zeta.
  assert (Hnone : forall key, In key optionNames ->
                    CLI.lookup (map CLI.entry (skipn 2 argv)) key = None).
  { intros key Hkey. apply lookup_absent. apply Forall_map.
    eapply Forall_impl; [|exact Hall].
    intros arg Harg E. apply Harg. rewrite E. exact Hkey. }
  rewrite !Hnone by (unfold optionNames; cbn [In]; tauto).
  reflexivity.
Qed.

Lemma parseArgs_defaults_witness :
  CLI.parseArgs ["node"; "melody-generator.ts"; "--verbose"; "a=b"]%string
  = defaultParams.
Proof.
  apply (@parseArgs_defaults
           ["node"; "melody-generator.ts"; "--verbose"; "a=b"]%string).
  repeat constructor; cbn; intuition discriminate.
Defined.



(** X21: the option --seed=text given last, text without an equals sign,
    sets the seed to that text, except that an empty text leaves the seed
    undefined. *)
Theorem seed_option (argv : list string) (text : string) :
  (2 <= List.length argv)%nat -> hasEquals text = false ->
  CLI.seed (CLI.parseArgs (argv ++ [("--seed=" ++ text)%string]))
  = match text with
    | EmptyString => None
    | _ => Some text
    end.
Proof.
  intros Hlen Hplain. unfold CLI.parseArgs. cbv zeta. cbn [CLI.seed].
  change ("--seed=" ++ text)%string with ("--" ++ "seed" ++ "=" ++ text)%string.
  rewrite (@lookup_given argv "seed" text Hlen eq_refl Hplain).
  destruct text; reflexivity.
Qed.

Lemma seed_option_witness :
  CLI.seed (CLI.parseArgs ["node"; "melody-generator.ts"; "--seed=hello"]%string)
  = Some "hello"%string.
Proof.
  apply (@seed_option ["node"; "melody-generator.ts"]%string "hello"%string).
  - cbn. lia.
  - reflexivity.
Defined.

(** X22: a seed text that holds an equals sign is not read as a seed: the
    argument --seed=text then counts as a flag of another name and
    parseArgs returns what it returns without it. *)
Theorem seed_with_equals_ignored (argv : list string) (text : string) :
  (2 <= List.length argv)%nat -> hasEquals text = true ->
  CLI.parseArgs (argv ++ [("--seed=" ++ text)%string]) = CLI.parseArgs argv.
Proof.
  intros Hlen Heq. apply parseArgs_ignores; [assumption|].
  unfold CLI.entry.
  change (CLI.stripDashes ("--seed=" ++ text))
    with (("seed" ++ "=" ++ text)%string).
  rewrite split_pair by reflexivity.
  destruct (split_two _ Heq) as (a & b & rest & ->).
  cbn. intuition discriminate.
Qed.

Lemma seed_with_equals_ignored_witness :
  CLI.parseArgs ["node"; "melody-generator.ts"; "--seed=a=b"]%string
  = CLI.parseArgs ["node"; "melody-generator.ts"]%string.
Proof.
  apply (@seed_with_equals_ignored ["node"; "melody-generator.ts"]%string
           "a=b"%string).
  - cbn. lia.
  - reflexivity.
Defined.

(** X23: an option given last without a value counts as the text "true":
    --measures then makes the measure count NaN, and --seed makes the seed
    the text "true". *)
Theorem valueless_options (argv : list string) :
  (2 <= List.length argv)%nat ->
  CLI.measures (CLI.parseArgs (argv ++ ["--measures"%string])) = None /\
  CLI.seed (CLI.parseArgs (argv ++ ["--seed"%string])) = Some "true"%string.
Proof.
  intro Hlen. unfold CLI.parseArgs. cbv zeta. cbn [CLI.measures CLI.seed].
  rewrite !skipn_app_last by assumption. rewrite !map_app. cbn [map].
  change (CLI.entry "--measures") with ("measures"%string, "true"%string).
  change (CLI.entry "--seed") with ("seed"%string, "true"%string).
  rewrite !lookup_last. split; reflexivity.
Qed.

Lemma valueless_options_witness :
  CLI.measures
    (CLI.parseArgs ["node"; "melody-generator.ts"; "--measures"]%string)
  = None /\
  CLI.seed (CLI.parseArgs ["node"; "melody-generator.ts"; "--seed"]%string)
  = Some "true"%string.
Proof.
  apply (@valueless_options ["node"; "melody-generator.ts"]%string).
  cbn. lia.
Defined.
